(** * High-Performance React Hooks Library: useFetch, useThrottle, useDebounce

    A shallow embedding of the hooks and the proofs of their specification.

    - [Js]          the JavaScript platform as far as the hooks rely on it:
                    values of type [any], strings as UTF-16 code units, key
                    order, [URLSearchParams.prototype.toString], numbers
                    and the delay of a timer;
    - [UseFetch]    the data fetcher: query string, request headers,
                    [AbortController] bookkeeping, the [try]/[catch]/[finally]
                    of [fetchData] and the mount effect;
    - [UseThrottle] the throttled value with its timer;
    - [UseDebounce] the debounced value;
    - [QueryFacts], [FetchFacts], [ThrottleFacts], [DebounceFacts],
      [QueryMore], [FetchMore], [ThrottleMore]
                    what is proved of them.

    Text that the hooks inspect character by character (the keys of
    [params] and the [String(value)]s, which are sorted and encoded) is a
    list of UTF-16 code units. Text that they only pass on, concatenate or
    compare with a constant (URLs, header names and values, messages, the
    JSON text of a body) is a Rocq [string]. Maps with string keys whose
    order is irrelevant are [gmap string _]; the [params] object, whose key
    order is observable, is an association list in insertion order.

    Time is whole milliseconds, as [Date.now()] gives it, and the clock does
    not go back. *)

From Stdlib Require Import ZArith Ascii String QArith Qround Lqa.
From stdpp Require Import base gmap strings list sorting pretty.

Close Scope Q_scope.
Local Open Scope string_scope.

(* ===================================================================== *)
(** * The JavaScript platform *)
(* ===================================================================== *)

Module Js.

(** A thrown value, as far as a [catch] block looks at it. *)
Record Error : Type := { name : string; message : string }.

(** ** Strings whose characters matter: UTF-16 code units *)

(** A string as the sequence of its code units, each below 65536. *)
Definition str : Type := list N.

Definition well_formed (s : str) : Prop := Forall (λ u, (u < 65536)%N) s.

(** The string of an ASCII literal. *)
Definition lit (s : string) : str := N_of_ascii <$> list_ascii_of_string s.

(** ** Values of type [any]
    A value is given by what the hooks observe of it: the string
    [String(v)] gives, whether it is truthy, and what [JSON.stringify(v)]
    does, which is to throw (a BigInt, a cycle, a throwing [toJSON]), to
    return [undefined] (a function, a symbol, [undefined]) or to return the
    JSON text. A value for which [String(v)] itself throws has no place here:
    with such a value among [params] the render throws inside [useMemo] and
    the hook does nothing at all. *)
Record Value : Type := {
  String_ : str;
  truthy : bool;
  JSON_stringify : Error + option string }.

(** [undefined] *)
Definition undefined : Value :=
  {| String_ := lit "undefined"; truthy := false; JSON_stringify := inr None |}.

(** A string is truthy when it is not empty. *)
Definition truthy_string (s : string) : bool := negb (String.eqb s "").

(** ** The default order of [Array.prototype.sort]
    Strings are compared code unit by code unit, a proper prefix first. *)
Fixpoint compare (a b : str) : comparison :=
  match a, b with
  | [], [] => Eq
  | [], _ :: _ => Lt
  | _ :: _, [] => Gt
  | x :: a', y :: b' =>
      match (x ?= y)%N with
      | Eq => compare a' b'
      | c => c
      end
  end.

Definition key_le (a b : str) : Prop := compare a b ≠ Gt.

#[global] Instance key_le_dec a b : Decision (key_le a b).
Proof. unfold key_le. destruct (compare a b); [left|left|right]; congruence. Defined.

(** ** [URLSearchParams.prototype.toString]
    [append] takes its arguments as scalar value strings: a surrogate that
    is not part of a pair becomes U+FFFD, a pair becomes its code point. The
    application/x-www-form-urlencoded serializer then writes the UTF-8 bytes
    of each code point: a byte is kept when it is an ASCII letter, a digit
    or one of [* - . _], a space becomes [+], and every other byte is written
    [%XX] in upper-case hexadecimal. *)

Definition is_high (u : N) : bool := ((0xD800 <=? u) && (u <=? 0xDBFF))%N.
Definition is_low (u : N) : bool := ((0xDC00 <=? u) && (u <=? 0xDFFF))%N.

Fixpoint scalar_values (s : str) : list N :=
  match s with
  | [] => []
  | u :: s' =>
      if is_high u then
        match s' with
        | l :: s'' =>
            if is_low l
            then (0x10000 + (u - 0xD800) * 0x400 + (l - 0xDC00))%N :: scalar_values s''
            else 0xFFFD%N :: scalar_values s'
        | [] => [0xFFFD%N]
        end
      else if is_low u then 0xFFFD%N :: scalar_values s'
      else u :: scalar_values s'
  end.

Definition utf8 (c : N) : list N :=
  if (c <? 0x80)%N then [c]
  else if (c <? 0x800)%N then [0xC0 + c / 64; 0x80 + c mod 64]%N
  else if (c <? 0x10000)%N
  then [0xE0 + c / 4096; 0x80 + (c / 64) mod 64; 0x80 + c mod 64]%N
  else [0xF0 + c / 262144; 0x80 + (c / 4096) mod 64;
        0x80 + (c / 64) mod 64; 0x80 + c mod 64]%N.

Definition hex_digit (n : N) : ascii :=
  ascii_of_N (if (n <? 10)%N then 48 + n else 55 + n).

Definition percent_byte (b : N) : string :=
  String "%" (String (hex_digit (b / 16)) (String (hex_digit (b mod 16)) "")).

Definition unreserved (b : N) : bool :=
  ((48 <=? b) && (b <=? 57) || (65 <=? b) && (b <=? 90) ||
   (97 <=? b) && (b <=? 122) ||
   (b =? 42) || (b =? 45) || (b =? 46) || (b =? 95))%N.

Definition encode_byte (b : N) : string :=
  if (b =? 32)%N then "+"
  else if unreserved b then String (ascii_of_N b) ""
  else percent_byte b.

Definition urlencode (s : str) : string :=
  String.concat "" (encode_byte <$> (scalar_values s ≫= utf8)).

Definition URLSearchParams_toString (l : list (str * str)) : string :=
  String.concat "&" ((λ kv, urlencode kv.1 ++ "=" ++ urlencode kv.2) <$> l).

(** ** Numbers
    A number is a finite one, given by its exact value, or one of [NaN],
    [Infinity], [-Infinity]. The hooks only compare an integer with a number
    and subtract an integer from a number; for a finite number below 2^53 in
    magnitude and an integer between zero and it, both are exact. *)
Inductive Number : Type :=
  | Finite (q : Q)
  | NaN
  | Infinity
  | NegInfinity.

(** [n >= x] for an integer [n] *)
Definition ge_int (n : Z) (x : Number) : bool :=
  match x with
  | Finite q => Qle_bool q (inject_Z n)
  | NaN | Infinity => false
  | NegInfinity => true
  end.

(** [x - n] for an integer [n] *)
Definition sub_int (x : Number) (n : Z) : Number :=
  match x with
  | Finite q => Finite (q - inject_Z n)
  | _ => x
  end.

(** ** The delay of [setTimeout]
    The platform turns the delay into an integer, [NaN] and the infinities
    into zero and any other number by cutting off its fraction, and keeps it
    in a signed 32-bit integer. A delay from 0 to 2^31-1 is waited for in
    full. What happens to a delay outside this range depends on the
    platform (a browser wraps it around and takes a negative result as zero,
    Node.js takes one millisecond), so for such a delay the timer is only
    known not to run before it was set. [timer_delay] is the time a timer
    waits at the least. *)
Definition truncate (q : Q) : Z :=
  if Qle_bool 0 q then Qfloor q else Qceiling q.

Definition timer_delay (delay : Number) : Z :=
  match delay with
  | Finite q =>
      let t := truncate q in
      if ((0 <=? t) && (t <=? 2147483647))%Z then t else 0%Z
  | _ => 0%Z
  end.

End Js.

(* ===================================================================== *)
(** * useFetch *)
(* ===================================================================== *)

Module UseFetch.

(** ** The query string (the [useMemo] block) *)

(** [Record<string, any>]: own properties in insertion order. *)
Definition Params := list (Js.str * Js.Value).

(** [Object.keys(params)] *)
Definition Object_keys (p : Params) : list Js.str := p.*1.

(** [params[key]] *)
Fixpoint get (p : Params) (key : Js.str) : Js.Value :=
  match p with
  | [] => Js.undefined
  | (k, v) :: p' => if decide (k = key) then v else get p' key
  end.

(** The entries appended to [searchParams], in the order of the [forEach]. *)
Definition searchParams (p : Params) : list (Js.str * Js.str) :=
  (λ key, (key, Js.String_ (get p key))) <$> merge_sort Js.key_le (Object_keys p).

Definition queryString (params : option Params) : string :=
  match params with
  | None => ""
  | Some p => Js.URLSearchParams_toString (searchParams p)
  end.

(** [queryString ? `${baseUrl}?${queryString}` : baseUrl] *)
Definition finalUrl (baseUrl qs : string) : string :=
  if Js.truthy_string qs then baseUrl ++ "?" ++ qs else baseUrl.

(** ** Options, requests and responses *)

Inductive Method : Type := GET | POST | PUT | DELETE.

#[global] Instance Method_eq_dec : EqDecision Method.
Proof. solve_decision. Defined.

(** [HeadersInit]: a plain record, an array of arrays of strings, or a
    [Headers] instance (given by its entries). *)
Inductive HeadersInit : Type :=
  | HeadersRecord (r : gmap string string)
  | HeadersPairs (l : list (list string))
  | HeadersObject (l : list (string * string)).

(** What [...(headers as Record<string, string>)] copies, each value as
    [fetch] reads it, that is converted to a string: the own enumerable
    properties. Those of a record are its entries; those of an array are its
    indices, each holding an inner array, which as a string is its elements
    joined by commas; a [Headers] instance has none. *)
Definition spread (h : HeadersInit) : gmap string string :=
  match h with
  | HeadersRecord r => r
  | HeadersPairs l => list_to_map (imap (λ i inner, (pretty i, String.concat "," inner)) l)
  | HeadersObject _ => ∅
  end.

(** [TUseFetchOptions]; an omitted property is [None] ([Js.undefined] for
    [body]). *)
Record Options : Type := {
  method : option Method;
  body : Js.Value;
  headers : option HeadersInit;
  immediate : option bool }.

Record Props : Type := {
  baseUrl : string;
  params : option Params;
  options : Options }.

(** The arguments of one call to [fetch]. [req_body] is [None] for [null]
    or [undefined]; [req_signal] names the [AbortController] whose signal
    was passed. *)
Record Request : Type := {
  req_url : string;
  req_method : Method;
  req_headers : gmap string string;
  req_body : option string;
  req_signal : nat }.

Record Response : Type := { ok : bool; status : N; statusText : string }.

(** [body ? JSON.stringify(body) : null] *)
Definition body_init (b : Js.Value) : Js.Error + option string :=
  if Js.truthy b then Js.JSON_stringify b else inr None.

Section Hook.

(** The type of the decoded payload, and the platform's source of UUIDs:
    [randomUUID i] is what the [i]-th call of [crypto.randomUUID()] does,
    which is to return a UUID or, where the function is missing (a page that
    is not in a secure context), to throw. *)
Context {T : Type} (randomUUID : nat → Js.Error + string).

(** How the two [await]s of one [fetchData] call end: [fetch] rejects, or it
    resolves with a response whose [json()] (only called when [response.ok])
    rejects or resolves. *)
Inductive Outcome : Type :=
  | FetchRejected (e : Js.Error)
  | Responded (r : Response) (json : Js.Error + T).

(** The hook's state: the three [useState] cells, the [activeController]
    ref, and the part of the platform it talks to. Controllers are numbered
    in creation order. *)
Record Hook : Type := {
  data : option T;
  loading : bool;
  error : option string;
  activeController : option nat;
  controllers : nat;        (* how many [new AbortController()] so far *)
  aborted : gset nat;       (* controllers with [signal.aborted] *)
  inflight : gset nat;      (* signals of the calls still awaiting *)
  sent : list Request;      (* the calls to [fetch], oldest first *)
  draws : nat }.            (* calls to [crypto.randomUUID()] so far *)

Definition initial : Hook :=
  {| data := None; loading := false; error := None; activeController := None;
     controllers := 0; aborted := ∅; inflight := ∅; sent := []; draws := 0 |}.

Definition setData (d : option T) (s : Hook) : Hook :=
  {| data := d; loading := loading s; error := error s;
     activeController := activeController s; controllers := controllers s;
     aborted := aborted s; inflight := inflight s; sent := sent s;
     draws := draws s |}.

Definition setLoading (b : bool) (s : Hook) : Hook :=
  {| data := data s; loading := b; error := error s;
     activeController := activeController s; controllers := controllers s;
     aborted := aborted s; inflight := inflight s; sent := sent s;
     draws := draws s |}.

Definition setError (e : option string) (s : Hook) : Hook :=
  {| data := data s; loading := loading s; error := e;
     activeController := activeController s; controllers := controllers s;
     aborted := aborted s; inflight := inflight s; sent := sent s;
     draws := draws s |}.

Definition setActive (a : option nat) (s : Hook) : Hook :=
  {| data := data s; loading := loading s; error := error s;
     activeController := a; controllers := controllers s;
     aborted := aborted s; inflight := inflight s; sent := sent s;
     draws := draws s |}.

(** [controller.abort()] *)
Definition abort (c : nat) (s : Hook) : Hook :=
  {| data := data s; loading := loading s; error := error s;
     activeController := activeController s; controllers := controllers s;
     aborted := {[c]} ∪ aborted s; inflight := inflight s; sent := sent s;
     draws := draws s |}.

(** [signal.aborted] *)
Definition signal_aborted (c : nat) (s : Hook) : bool :=
  bool_decide (c ∈ aborted s).

(** [new AbortController()] *)
Definition new_controller (s : Hook) : nat * Hook :=
  (controllers s,
   {| data := data s; loading := loading s; error := error s;
      activeController := activeController s; controllers := S (controllers s);
      aborted := aborted s; inflight := inflight s; sent := sent s;
      draws := draws s |}).

(** [generateUUID()] *)
Definition generateUUID (s : Hook) : (Js.Error + string) * Hook :=
  (randomUUID (draws s),
   {| data := data s; loading := loading s; error := error s;
      activeController := activeController s; controllers := controllers s;
      aborted := aborted s; inflight := inflight s; sent := sent s;
      draws := S (draws s) |}).

(** [fetch(url, init)]: the request leaves and its promise is pending. *)
Definition fetch (r : Request) (s : Hook) : Hook :=
  {| data := data s; loading := loading s; error := error s;
     activeController := activeController s; controllers := controllers s;
     aborted := aborted s; inflight := {[req_signal r]} ∪ inflight s;
     sent := sent s ++ [r]; draws := draws s |}.

Definition settled (c : nat) (s : Hook) : Hook :=
  {| data := data s; loading := loading s; error := error s;
     activeController := activeController s; controllers := controllers s;
     aborted := aborted s; inflight := inflight s ∖ {[c]};
     sent := sent s; draws := draws s |}.

(** ** The [catch] and [finally] blocks *)

(** [if (err.name !== "AbortError") setError(err.message)] *)
Definition catch_block (err : Js.Error) (s : Hook) : Hook :=
  if negb (String.eqb (Js.name err) "AbortError")
  then setError (Some (Js.message err)) s else s.

(** [if (!currentSignal.aborted) setLoading(false)] *)
Definition finally_block (c : nat) (s : Hook) : Hook :=
  if negb (signal_aborted c s) then setLoading false s else s.

(** ** [fetchData] up to its first [await] *)

(** [if (activeController.current) activeController.current.abort()] *)
Definition abort_active (s : Hook) : Hook :=
  match activeController s with
  | Some c => abort c s
  | None => s
  end.

(** The [finalHeaders] object: the default, the caller's headers spread
    over it, and the key for a POST, unless [generateUUID] throws. *)
Definition finalHeaders (o : Options) (s : Hook)
    : (Js.Error + gmap string string) * Hook :=
  let h := spread (default (HeadersRecord ∅) (headers o))
           ∪ {["Content-Type" := "application/json"]} in
  if decide (default GET (method o) = POST)
  then let '(u, s') := generateUUID s in
       (match u with
        | inr uuid => inr (<["Idempotency-Key" := uuid]> h)
        | inl e => inl e
        end, s')
  else (inr h, s).

(** The [try] block from its start to the point where [fetch] is called:
    the headers and the body of the request, or what was thrown on the way,
    by [generateUUID] first and by [JSON.stringify] next. *)
Definition request_init (o : Options) (s : Hook)
    : (Js.Error + gmap string string * option string) * Hook :=
  let '(h, s) := finalHeaders o s in
  (match h with
   | inl e => inl e
   | inr h => match body_init (body o) with
              | inl e => inl e
              | inr b => inr (h, b)
              end
   end, s).

(** [fetchData] as far as it runs at once: it either calls [fetch] and
    waits, or catches what the [try] block threw before that and ends. *)
Definition fetchData (p : Props) (s : Hook) : Hook :=
  let s := abort_active s in
  let '(controller, s) := new_controller s in
  let s := setActive (Some controller) s in
  let s := setLoading true s in
  let s := setError None s in
  let '(init, s) := request_init (options p) s in
  match init with
  | inr (h, b) =>
      fetch {| req_url := finalUrl (baseUrl p) (queryString (params p));
               req_method := default GET (method (options p));
               req_headers := h;
               req_body := b;
               req_signal := controller |} s
  | inl err => finally_block controller (catch_block err s)
  end.

(** ** [fetchData] after its [await]s
    Between the call to [fetch] and the end of the [try] block the function
    writes nothing; what it does once the awaited promises have ended is one
    synchronous block, which reads [currentSignal.aborted] at that time. *)

(** What the [try] block has in hand when it stops awaiting: the thrown
    value or the decoded [result]. *)
Definition awaited (o : Outcome) : Js.Error + T :=
  match o with
  | FetchRejected e => inl e
  | Responded r json =>
      if negb (ok r)
      then inl {| Js.name := "Error";
                  Js.message := "Error: " ++ pretty (status r) ++ " " ++ statusText r |}
      else json
  end.

Definition settle (c : nat) (o : Outcome) (s : Hook) : Hook :=
  let s := settled c s in
  let s :=
    match awaited o with
    | inr result =>
        if negb (signal_aborted c s) then setData (Some result) s else s
    | inl err => catch_block err s
    end in
  finally_block c s.

(** ** The effect *)

(** [if (options.immediate !== false) fetchData()] *)
Definition effect (p : Props) (s : Hook) : Hook :=
  if decide (immediate (options p) ≠ Some false) then fetchData p s else s.

(** The function the effect returns. *)
Definition cleanup (s : Hook) : Hook :=
  match activeController s with
  | Some c => setActive None (abort c s)
  | None => s
  end.

(** ** Executions *)

Inductive Event : Type :=
  | Mount (p : Props)             (* the effect runs for the first time *)
  | Rerun (p : Props)             (* its dependencies changed *)
  | Refetch (p : Props)           (* the caller invokes [refetch] *)
  | Settle (c : nat) (o : Outcome)  (* the awaits of request [c] end *)
  | Unmount.

Definition step (s : Hook) (e : Event) : option Hook :=
  match e with
  | Mount p => Some (effect p s)
  | Rerun p => Some (effect p (cleanup s))
  | Refetch p => Some (fetchData p s)
  | Settle c o => if decide (c ∈ inflight s) then Some (settle c o s) else None
  | Unmount => Some (cleanup s)
  end.

Fixpoint run (s : Hook) (es : list Event) : option Hook :=
  match es with
  | [] => Some s
  | e :: es' => match step s e with Some s' => run s' es' | None => None end
  end.

Definition reachable (s : Hook) : Prop := ∃ es, run initial es = Some s.

(** The header a request carries under the name [Idempotency-Key]. *)
Definition idempotency_key (r : Request) : option string :=
  req_headers r !! "Idempotency-Key".

End Hook.

Arguments Outcome : clear implicits.
Arguments Hook : clear implicits.
Arguments Event : clear implicits.

End UseFetch.

(* ===================================================================== *)
(** * useThrottle *)
(* ===================================================================== *)

Module UseThrottle.

Local Open Scope Z_scope.

Section Hook.

Context {T : Type} (interval : Js.Number).

(** A timer set with [setTimeout]: when it may run at the earliest, and the
    [value] its callback closes over. *)
Record Timer : Type := { due : Z; captured : T }.

(** The [useState] cell, the [lastUpdated] ref, and the timer of the latest
    effect run for as long as it has neither run nor been cleared. Times are
    milliseconds as [Date.now()] gives them; [clock] is the time of the
    latest event, and [updates] records every call of [setThrottledValue]
    with the time it was made, oldest first. *)
Record Hook : Type := {
  throttledValue : T;
  lastUpdated : Z;
  timer : option Timer;
  clock : Z;
  updates : list (Z * T) }.

(** The first render at time [now]: [useState(value)] and
    [useRef(Date.now())]. *)
Definition render (now : Z) (value : T) : Hook :=
  {| throttledValue := value; lastUpdated := now; timer := None;
     clock := now; updates := [] |}.

(** [setThrottledValue(value); lastUpdated.current = now] *)
Definition update (now : Z) (value : T) (s : Hook) : Hook :=
  {| throttledValue := value; lastUpdated := now; timer := timer s;
     clock := clock s; updates := updates s ++ [(now, value)] |}.

(** [setTimeout(callback, delay)] at time [now]: the timer does not run
    before [Js.timer_delay delay] milliseconds have passed. *)
Definition setTimeout (now : Z) (delay : Js.Number) (value : T) (s : Hook) : Hook :=
  {| throttledValue := throttledValue s; lastUpdated := lastUpdated s;
     timer := Some {| due := now + Js.timer_delay delay; captured := value |};
     clock := clock s; updates := updates s |}.

(** [clearTimeout(timerId)], the cleanup of the effect; a run of the effect
    that took the first branch left no timer and returns no cleanup. *)
Definition clearTimeout (s : Hook) : Hook :=
  {| throttledValue := throttledValue s; lastUpdated := lastUpdated s;
     timer := None; clock := clock s; updates := updates s |}.

Definition tick (now : Z) (s : Hook) : Hook :=
  {| throttledValue := throttledValue s; lastUpdated := lastUpdated s;
     timer := timer s; clock := now; updates := updates s |}.

(** The body of the effect, run at time [now] for the rendered [value]. *)
Definition effect (now : Z) (value : T) (s : Hook) : Hook :=
  let timeSinceLastUpdate := now - lastUpdated s in
  if Js.ge_int timeSinceLastUpdate interval
  then update now value s
  else setTimeout now (Js.sub_int interval timeSinceLastUpdate) value s.

(** The callback of the timer, run at time [now]. *)
Definition callback (now : Z) (value : T) (s : Hook) : Hook :=
  update now value (clearTimeout s).

(** The platform: the clock does not go back, and a timer does not run
    before it is due. [Effect] is the effect after the mount or after a
    render with a new [value] (the cleanup of the previous run first, as
    React does). *)
Inductive Event : Type :=
  | Effect (now : Z) (value : T)
  | Fire (now : Z)
  | Unmount.

Definition step (s : Hook) (e : Event) : option Hook :=
  match e with
  | Effect now value =>
      if decide (clock s ≤ now)
      then Some (effect now value (clearTimeout (tick now s)))
      else None
  | Fire now =>
      match timer s with
      | Some t =>
          if decide (clock s ≤ now ∧ due t ≤ now)
          then Some (callback now (captured t) (tick now s))
          else None
      | None => None
      end
  | Unmount => Some (clearTimeout s)
  end.

Fixpoint run (s : Hook) (es : list Event) : option Hook :=
  match es with
  | [] => Some s
  | e :: es' => match step s e with Some s' => run s' es' | None => None end
  end.

End Hook.

Arguments Timer : clear implicits.
Arguments Hook : clear implicits.
Arguments Event : clear implicits.

End UseThrottle.

(* ===================================================================== *)
(** * useDebounce *)
(* ===================================================================== *)

Module UseDebounce.

Local Open Scope Z_scope.

Section Hook.

Context {T : Type} (delay : Z).

(** A pending timer: when it is due, and the input value it was set for. *)
Record Timer : Type := { due : Z; captured : T }.

(** What happened to the hook, with the time: an input [value] was
    rendered, or the debounced value was set. *)
Inductive Entry : Type :=
  | Input (t : Z) (v : T)
  | Update (t : Z) (v : T).

(** The debounced value, the pending timers of the platform by their ids,
    the id that the cleanup of the latest effect run clears, the id the next
    timer gets, the time of the latest event, and the history, oldest
    first. *)
Record Hook : Type := {
  debouncedValue : T;
  timers : gmap nat Timer;
  handler : option nat;
  next : nat;
  clock : Z;
  history : list Entry }.

(** Modelled from the spec: the first render, where the debounced value
    starts as the input value. *)
Definition render (now : Z) (value : T) : Hook :=
  {| debouncedValue := value; timers := ∅; handler := None; next := 0;
     clock := now; history := [] |}.

(** Modelled from the spec: the source of [useDebounce] is not among the
    files of the repository at hand, which only has its call
    [useDebounce(text, 500)] and its description ("delay propagating a value
    until input activity pauses for a fixed duration", "only updates 500ms
    after the user stops typing"). The effect, run for every new input
    [value], starts a wait of the fixed duration [delay]: it sets a new
    timer, due [delay] milliseconds later, whose callback sets the debounced
    value, and keeps its id for the cleanup. *)
Definition effect (now : Z) (value : T) (s : Hook) : Hook :=
  {| debouncedValue := debouncedValue s;
     timers := <[next s := {| due := now + delay; captured := value |}]> (timers s);
     handler := Some (next s);
     next := S (next s);
     clock := now; history := history s ++ [Input now value] |}.

(** Modelled from the spec: the cleanup of the effect, which clears the
    timer the effect set (and does nothing when that timer has run). *)
Definition cleanup (s : Hook) : Hook :=
  match handler s with
  | Some id =>
      {| debouncedValue := debouncedValue s; timers := delete id (timers s);
         handler := None; next := next s;
         clock := clock s; history := history s |}
  | None => s
  end.

(** Modelled from the spec: the callback of timer [id], which sets the
    debounced value to the input the timer was set for. *)
Definition callback (id : nat) (now : Z) (value : T) (s : Hook) : Hook :=
  {| debouncedValue := value; timers := delete id (timers s);
     handler := handler s; next := next s;
     clock := now; history := history s ++ [Update now value] |}.

Inductive Event : Type :=
  | Effect (now : Z) (value : T)
  | Fire (id : nat) (now : Z)
  | Unmount.

(** Modelled from the spec: the hook in time. The clock does not go back; a
    new input runs the cleanup of the previous effect and then the effect; a
    pending timer runs when it is due or later. *)
Definition step (s : Hook) (e : Event) : option Hook :=
  match e with
  | Effect now value =>
      if decide (clock s ≤ now)
      then Some (effect now value (cleanup s))
      else None
  | Fire id now =>
      match timers s !! id with
      | Some t =>
          if decide (clock s ≤ now ∧ due t ≤ now)
          then Some (callback id now (captured t) s)
          else None
      | None => None
      end
  | Unmount => Some (cleanup s)
  end.

Fixpoint run (s : Hook) (es : list Event) : option Hook :=
  match es with
  | [] => Some s
  | e :: es' => match step s e with Some s' => run s' es' | None => None end
  end.

(** The values the debounced state was set to, oldest first. *)
Fixpoint updated (h : list Entry) : list T :=
  match h with
  | [] => []
  | Update _ v :: h' => v :: updated h'
  | Input _ _ :: h' => updated h'
  end.

End Hook.

Arguments Timer : clear implicits.
Arguments Hook : clear implicits.
Arguments Entry : clear implicits.
Arguments Event : clear implicits.

End UseDebounce.

(* ===================================================================== *)
(** * Facts about the query string *)
(* ===================================================================== *)

Module QueryFacts.
Import UseFetch.

(** ** The key order is a total order *)

Lemma compare_refl a : Js.compare a a = Eq.
Proof. induction a as [|x a IH]; simpl; [done|]. by rewrite N.compare_refl. Qed.

Lemma compare_eq a : ∀ b, Js.compare a b = Eq → a = b.
Proof.
  induction a as [|x a IH]; intros [|y b]; simpl; try done.
  destruct (x ?= y)%N eqn:E; try done.
  apply N.compare_eq in E. intros ?%IH. congruence.
Qed.

Lemma compare_antisym a : ∀ b, Js.compare b a = CompOpp (Js.compare a b).
Proof.
  induction a as [|x a IH]; intros [|y b]; simpl; try done.
  rewrite (N.compare_antisym x y). destruct (x ?= y)%N; simpl; auto.
Qed.

Lemma compare_lt_trans a : ∀ b c,
  Js.compare a b = Lt → Js.compare b c = Lt → Js.compare a c = Lt.
Proof.
  induction a as [|x a IH]; intros [|y b] [|z c]; simpl; try done.
  destruct (x ?= y)%N eqn:Exy; try done;
    destruct (y ?= z)%N eqn:Eyz; try done; intros Hab Hbc.
  - apply N.compare_eq in Exy, Eyz. subst. rewrite N.compare_refl. eauto.
  - apply N.compare_eq in Exy. subst. by rewrite Eyz.
  - apply N.compare_eq in Eyz. subst. by rewrite Exy.
  - rewrite N.compare_lt_iff in Exy, Eyz.
    by rewrite (proj2 (N.compare_lt_iff x z)) by lia.
Qed.

Lemma key_le_cases a b : Js.key_le a b ↔ a = b ∨ Js.compare a b = Lt.
Proof.
  unfold Js.key_le. split.
  - destruct (Js.compare a b) eqn:H; try done; [left|right]; [|done].
    by apply compare_eq.
  - intros [-> | ->]; [|done]. by rewrite compare_refl.
Qed.

#[global] Instance key_le_trans : Transitive Js.key_le.
Proof.
  intros a b c. rewrite !key_le_cases.
  intros [-> | Hab] [-> | Hbc]; eauto using compare_lt_trans.
Qed.

#[global] Instance key_le_total : Total Js.key_le.
Proof.
  intros a b. unfold Js.key_le. rewrite (compare_antisym a b).
  destruct (Js.compare a b); simpl; [left|left|right]; congruence.
Qed.

#[global] Instance key_le_antisym : AntiSymm (=) Js.key_le.
Proof.
  intros a b. unfold Js.key_le. rewrite (compare_antisym a b).
  destruct (Js.compare a b) eqn:E; simpl; try done.
  intros _ _. by apply compare_eq.
Qed.

(** ** Reading a property of a record *)

Lemma get_elem_of (p : Params) k v :
  NoDup (Object_keys p) → (k, v) ∈ p → get p k = v.
Proof.
  unfold Object_keys. induction p as [|[k' v'] p IH]; simpl.
  - by intros _ ?%elem_of_nil.
  - rewrite NoDup_cons, elem_of_cons. intros [Hk Hnd] [[= -> ->] | Hin].
    + by rewrite decide_True.
    + rewrite decide_False; [by apply IH|].
      intros ->. apply Hk. apply list_elem_of_fmap. by exists (k, v).
Qed.

Lemma get_Permutation (p1 p2 : Params) k :
  NoDup (Object_keys p1) → p1 ≡ₚ p2 → k ∈ Object_keys p1 → get p1 k = get p2 k.
Proof.
  intros Hnd Hp Hk.
  apply list_elem_of_fmap in Hk as [[k' v] [-> Hin]]. simpl.
  rewrite (get_elem_of p1 k' v) by done.
  symmetry. apply get_elem_of.
  - unfold Object_keys in *. by rewrite <- Hp.
  - by rewrite <- Hp.
Qed.

Lemma sorted_keys_Permutation (p1 p2 : Params) :
  p1 ≡ₚ p2 →
  merge_sort Js.key_le (Object_keys p1) = merge_sort Js.key_le (Object_keys p2).
Proof.
  intros Hp. apply (Sorted_unique Js.key_le).
  - apply Sorted_merge_sort, _.
  - apply Sorted_merge_sort, _.
  - rewrite !merge_sort_Permutation. unfold Object_keys. by rewrite Hp.
Qed.

Lemma searchParams_keys (p : Params) :
  (searchParams p).*1 = merge_sort Js.key_le (Object_keys p).
Proof.
  unfold searchParams. rewrite <- list_fmap_compose.
  apply list_fmap_id.
Qed.

Lemma searchParams_Permutation (p1 p2 : Params) :
  NoDup (Object_keys p1) → p1 ≡ₚ p2 → searchParams p1 = searchParams p2.
Proof.
  intros Hnd Hp. unfold searchParams.
  rewrite <- (sorted_keys_Permutation p1 p2 Hp).
  apply list_fmap_ext. intros i k Hk. do 2 f_equal.
  apply get_Permutation; [done..|].
  apply list_elem_of_lookup_2 in Hk.
  by rewrite merge_sort_Permutation in Hk.
Qed.

(** The entries of the query string are those of the record. *)
Lemma searchParams_entries (p : Params) :
  NoDup (Object_keys p) →
  searchParams p ≡ₚ (λ kv, (kv.1, Js.String_ kv.2)) <$> p.
Proof.
  intros Hnd. unfold searchParams.
  rewrite merge_sort_Permutation. unfold Object_keys.
  rewrite <- list_fmap_compose.
  assert (((λ key, (key, Js.String_ (get p key))) ∘ fst) <$> p
          = (λ kv, (kv.1, Js.String_ kv.2)) <$> p) as ->; [|done].
  apply list_fmap_ext. intros i [k v] Hkv. simpl.
  by rewrite (get_elem_of p k v) by eauto using list_elem_of_lookup_2.
Qed.

(** ** Cutting the query string at [=] and [&] *)

(** [occurs a s]: the character [a] is somewhere in [s]. *)
Fixpoint occurs (a : ascii) (s : string) : bool :=
  match s with
  | EmptyString => false
  | String c s' => Ascii.eqb c a || occurs a s'
  end.

Lemma occurs_cons a c s : occurs a (String c s) = Ascii.eqb c a || occurs a s.
Proof. reflexivity. Qed.

Lemma occurs_app a s1 s2 : occurs a (s1 ++ s2) = occurs a s1 || occurs a s2.
Proof.
  induction s1 as [|c s1 IH]; simpl; [done|]. by rewrite IH, orb_assoc.
Qed.

Lemma occurs_here a r x : occurs a (x ++ String a r) = true.
Proof.
  rewrite occurs_app. simpl. rewrite Ascii.eqb_refl. apply orb_true_r.
Qed.

Lemma append_empty_r s : s ++ "" = s.
Proof.
  induction s as [|c s IH]; [done|].
  change (String c (s ++ "") = String c s). by rewrite IH.
Qed.

(** One [name=value] entry, as [URLSearchParams_toString] writes it. *)
Definition entry (kv : Js.str * Js.str) : string :=
  Js.urlencode kv.1 ++ "=" ++ Js.urlencode kv.2.


Lemma entry_has_equals kv : occurs "=" (entry kv) = true.
Proof. apply occurs_here. Qed.

Lemma toString_cons kv l :
  Js.URLSearchParams_toString (kv :: l) =
  entry kv ++ match l with
              | [] => ""
              | _ => String "&" (Js.URLSearchParams_toString l)
              end.
Proof.
  unfold Js.URLSearchParams_toString. destruct l.
  - by rewrite append_empty_r.
  - done.
Qed.

Lemma toString_cons_has_equals kv l :
  occurs "=" (Js.URLSearchParams_toString (kv :: l)) = true.
Proof. rewrite toString_cons, occurs_app. by rewrite entry_has_equals. Qed.

Lemma searchParams_nil (p : Params) : searchParams p = [] → p = [].
Proof.
  intros H%(f_equal length). unfold searchParams, Object_keys in H.
  rewrite length_fmap, merge_sort_Permutation, length_fmap in H.
  by destruct p.
Qed.

Lemma queryString_empty (p : Params) : queryString (Some p) = "" ↔ p = [].
Proof.
  split; [|by intros ->]. simpl. intros H.
  apply searchParams_nil. destruct (searchParams p) as [|kv l]; [done|].
  apply (f_equal (occurs "=")) in H.
  by rewrite toString_cons_has_equals in H.
Qed.

Lemma finalUrl_nonempty baseUrl (p : Params) :
  p ≠ [] →
  finalUrl baseUrl (queryString (Some p)) = baseUrl ++ "?" ++ queryString (Some p).
Proof.
  intros Hp. unfold finalUrl, Js.truthy_string.
  destruct (String.eqb_spec (queryString (Some p)) "") as [He|He]; [|done].
  by apply queryString_empty in He.
Qed.

(** ** Sample values *)

(** The numbers 1, 2 and 10, the string "x&y" and [true]. *)
Definition number_1 : Js.Value :=
  {| Js.String_ := Js.lit "1"; Js.truthy := true; Js.JSON_stringify := inr (Some "1") |}.
Definition number_2 : Js.Value :=
  {| Js.String_ := Js.lit "2"; Js.truthy := true; Js.JSON_stringify := inr (Some "2") |}.
Definition number_10 : Js.Value :=
  {| Js.String_ := Js.lit "10"; Js.truthy := true; Js.JSON_stringify := inr (Some "10") |}.
Definition quote : string := String (ascii_of_N 34) "".
Definition string_x_and_y : Js.Value :=
  {| Js.String_ := Js.lit "x&y"; Js.truthy := true;
     Js.JSON_stringify := inr (Some (quote ++ "x&y" ++ quote)) |}.
Definition boolean_true : Js.Value :=
  {| Js.String_ := Js.lit "true"; Js.truthy := true;
     Js.JSON_stringify := inr (Some "true") |}.

Example queryString_demo :
  finalUrl "/api/transactions"
    (queryString (Some [(Js.lit "page", number_1); (Js.lit "a b", string_x_and_y);
                        (Js.lit "Z", boolean_true)]))
  = "/api/transactions?Z=true&a+b=x%26y&page=1".
Proof. vm_compute. reflexivity. Qed.

(** Code units beyond ASCII: U+00E9, a surrogate pair (U+1F600) and a lone
    surrogate, which is written as U+FFFD. *)
Example urlencode_demo :
  Js.urlencode [233; 0xD83D; 0xDE00; 0xD800]%N = "%C3%A9%F0%9F%98%80%EF%BF%BD".
Proof. vm_compute. reflexivity. Qed.

(** Keys are ordered by code unit: the surrogates of U+1F600 come before
    U+FF5E. *)
Example sort_demo :
  merge_sort Js.key_le [[0xFF5E]; [0xD83D; 0xDE00]; Js.lit "b"; Js.lit "B"; Js.lit "a"]%N
  = [Js.lit "B"; Js.lit "a"; Js.lit "b"; [0xD83D; 0xDE00]; [0xFF5E]]%N.
Proof. vm_compute. reflexivity. Qed.

Example queryString_empty_record : finalUrl "/api/pay" (queryString (Some [])) = "/api/pay".
Proof. reflexivity. Qed.

(** C7. For a params record [p1] (its keys are distinct, as those of an
    object are), the query string is the serialization of entries that are
    exactly the record's keys with their [String(value)]s, enumerated in
    ascending key order; a record [p2] with the same entries in another
    insertion order gives the same query string and the same request URL;
    a record with at least one key gives the base URL, a question mark and
    the query string; and with null or absent params the query string is
    empty and the URL is the base URL itself, with no question mark. *)
Theorem query_string_is_canonical (baseUrl : string) (p1 p2 : Params) :
  NoDup (Object_keys p1) →
  p1 ≡ₚ p2 →
  (∃ es, queryString (Some p1) = Js.URLSearchParams_toString es ∧
         Sorted Js.key_le es.*1 ∧ NoDup es.*1 ∧
         es ≡ₚ (λ kv, (kv.1, Js.String_ kv.2)) <$> p1) ∧
  queryString (Some p1) = queryString (Some p2) ∧
  finalUrl baseUrl (queryString (Some p1)) = finalUrl baseUrl (queryString (Some p2)) ∧
  (p1 ≠ [] → finalUrl baseUrl (queryString (Some p1))
             = baseUrl ++ "?" ++ queryString (Some p1)) ∧
  queryString None = "" ∧
  finalUrl baseUrl (queryString None) = baseUrl.
Proof.
  intros Hnd Hp.
  assert (queryString (Some p1) = queryString (Some p2)) as Hq.
  { simpl. by rewrite (searchParams_Permutation p1 p2). }
  split; [|split; [done|split; [by rewrite Hq|split; [|done]]]].
  - exists (searchParams p1). split; [done|]. rewrite searchParams_keys.
    split; [apply Sorted_merge_sort, _|]. split.
    + by rewrite merge_sort_Permutation.
    + by apply searchParams_entries.
  - apply finalUrl_nonempty.
Qed.

Lemma query_string_is_canonical_witness :
  let p1 := [(Js.lit "page", number_2); (Js.lit "limit", number_10)] in
  let p2 := [(Js.lit "limit", number_10); (Js.lit "page", number_2)] in
  NoDup (Object_keys p1) ∧ p1 ≡ₚ p2 ∧
  queryString (Some p1) = "limit=10&page=2" ∧
  queryString (Some p1) = queryString (Some p2).
Proof.
  intros p1 p2.
  assert (NoDup (Object_keys p1)) as Hnd.
  { apply (bool_decide_unpack _). vm_compute. exact I. }
  assert (p1 ≡ₚ p2) as Hp by apply perm_swap.
  split; [exact Hnd|]. split; [exact Hp|]. split; [reflexivity|].
  apply (query_string_is_canonical "/api/transactions" p1 p2 Hnd Hp).
Defined.

End QueryFacts.

(* ===================================================================== *)
(** * Facts about useFetch *)
(* ===================================================================== *)

Module FetchFacts.
Import UseFetch.

Section Facts.

Context {T : Type} (randomUUID : nat → Js.Error + string).

(** ** The [try] block before [fetch] *)

(** What the [try] block of a call of [fetchData] in state [s] has when it
    reaches [fetch], the headers and the body, or what it threw before. *)
Definition prepared (p : Props) (s : Hook T)
    : Js.Error + gmap string string * option string :=
  (request_init randomUUID (options p) s).1.

(** The headers before the key is added. *)
Definition base_headers (p : Props) : gmap string string :=
  spread (default (HeadersRecord ∅) (headers (options p)))
  ∪ {["Content-Type" := "application/json"]}.

(** How many calls of [crypto.randomUUID()] there are after the call. *)
Definition draws_after (p : Props) (s : Hook T) : nat :=
  if decide (default GET (method (options p)) = POST)
  then S (draws s) else draws s.

(** The request that the call sends with headers [h] and body [b]. *)
Definition request_of (p : Props) (s : Hook T)
    (h : gmap string string) (b : option string) : Request :=
  {| req_url := finalUrl (baseUrl p) (queryString (params p));
     req_method := default GET (method (options p));
     req_headers := h;
     req_body := b;
     req_signal := controllers s |}.

Lemma prepared_post p (s : Hook T) u b :
  default GET (method (options p)) = POST →
  randomUUID (draws s) = inr u →
  body_init (body (options p)) = inr b →
  prepared p s = inr (<["Idempotency-Key" := u]> (base_headers p), b).
Proof.
  intros Hm Hu Hb. unfold prepared, request_init, finalHeaders, generateUUID.
  rewrite decide_True by done. simpl. by rewrite Hu, Hb.
Qed.

Lemma prepared_other p (s : Hook T) b :
  default GET (method (options p)) ≠ POST →
  body_init (body (options p)) = inr b →
  prepared p s = inr (base_headers p, b).
Proof.
  intros Hm Hb. unfold prepared, request_init, finalHeaders.
  rewrite decide_False by done. simpl. by rewrite Hb.
Qed.

Lemma prepared_inv p (s : Hook T) h b :
  prepared p s = inr (h, b) →
  body_init (body (options p)) = inr b ∧
  if decide (default GET (method (options p)) = POST)
  then ∃ u, randomUUID (draws s) = inr u ∧
            h = <["Idempotency-Key" := u]> (base_headers p)
  else h = base_headers p.
Proof.
  unfold prepared, request_init, finalHeaders, generateUUID, base_headers.
  case_decide; simpl.
  - destruct (randomUUID (draws s)) as [e|u]; [done|].
    destruct (body_init _) as [e|b']; [done|]. intros [= <- <-]. eauto.
  - destruct (body_init _) as [e|b']; [done|]. by intros [= <- <-].
Qed.

(** ** What one call of [fetchData] changes *)

Lemma fetchData_sends p (s : Hook T) h b :
  prepared p s = inr (h, b) →
  fetchData randomUUID p s =
  {| data := data s; loading := true; error := None;
     activeController := Some (controllers s);
     controllers := S (controllers s);
     aborted := aborted (abort_active s);
     inflight := {[controllers s]} ∪ inflight s;
     sent := sent s ++ [request_of p s h b];
     draws := draws_after p s |}.
Proof.
  unfold prepared, fetchData, request_init, finalHeaders, generateUUID,
    new_controller, abort_active, draws_after, request_of.
  destruct (activeController s); simpl; case_decide; simpl;
    try destruct (randomUUID (draws s)); simpl;
    try destruct (body_init (body (options p))); simpl;
    intros ?; simplify_eq; reflexivity.
Qed.

Lemma fetchData_throws p (s : Hook T) e :
  prepared p s = inl e →
  fetchData randomUUID p s =
  {| data := data s;
     loading := bool_decide (controllers s ∈ aborted (abort_active s));
     error := if String.eqb (Js.name e) "AbortError" then None
              else Some (Js.message e);
     activeController := Some (controllers s);
     controllers := S (controllers s);
     aborted := aborted (abort_active s);
     inflight := inflight s;
     sent := sent s;
     draws := draws_after p s |}.
Proof.
  unfold prepared, fetchData, request_init, finalHeaders, generateUUID,
    new_controller, abort_active, draws_after, finally_block, catch_block,
    signal_aborted.
  destruct (activeController s); simpl; case_decide; simpl;
    try destruct (randomUUID (draws s)); simpl;
    try destruct (body_init (body (options p))); simpl;
    intros ?; simplify_eq;
    destruct (String.eqb (Js.name e) "AbortError"); simpl;
    case_bool_decide; reflexivity.
Qed.

Ltac fetch_cases p s :=
  let e := fresh "e" in let h := fresh "h" in let b := fresh "b" in
  let E := fresh "E" in
  destruct (prepared p s) as [e|[h b]] eqn:E;
  [rewrite (fetchData_throws p s e E)|rewrite (fetchData_sends p s h b E)].

Lemma fetchData_data p (s : Hook T) : data (fetchData randomUUID p s) = data s.
Proof. by fetch_cases p s. Qed.

Lemma fetchData_active p (s : Hook T) :
  activeController (fetchData randomUUID p s) = Some (controllers s).
Proof. by fetch_cases p s. Qed.

Lemma fetchData_controllers p (s : Hook T) :
  controllers (fetchData randomUUID p s) = S (controllers s).
Proof. by fetch_cases p s. Qed.

Lemma fetchData_aborted p (s : Hook T) :
  aborted (fetchData randomUUID p s) = aborted (abort_active s).
Proof. by fetch_cases p s. Qed.

Lemma fetchData_draws p (s : Hook T) :
  draws (fetchData randomUUID p s) = draws_after p s.
Proof. by fetch_cases p s. Qed.

Lemma fetchData_inflight p (s : Hook T) c :
  c ∈ inflight (fetchData randomUUID p s) →
  (c = controllers s ∧ ∃ h b, prepared p s = inr (h, b)) ∨ c ∈ inflight s.
Proof.
  fetch_cases p s; simpl; [auto|].
  rewrite elem_of_union, elem_of_singleton. intros [-> | ?]; eauto.
Qed.

Lemma abort_active_frame (s : Hook T) :
  data (abort_active s) = data s ∧ loading (abort_active s) = loading s ∧
  error (abort_active s) = error s ∧
  activeController (abort_active s) = activeController s ∧
  controllers (abort_active s) = controllers s ∧
  inflight (abort_active s) = inflight s ∧ sent (abort_active s) = sent s ∧
  draws (abort_active s) = draws s.
Proof. unfold abort_active. by destruct (activeController s) eqn:E. Qed.

Lemma abort_active_aborted (s : Hook T) c :
  c ∈ aborted (abort_active s) ↔ activeController s = Some c ∨ c ∈ aborted s.
Proof.
  unfold abort_active. destruct (activeController s) as [a|]; simpl.
  - rewrite elem_of_union, elem_of_singleton.
    split; intros [H|H]; auto; left; congruence.
  - split; [auto|]. by intros [?|?].
Qed.

Lemma cleanup_aborted (s : Hook T) c :
  c ∈ aborted (cleanup s) ↔ activeController s = Some c ∨ c ∈ aborted s.
Proof.
  unfold cleanup. destruct (activeController s) as [a|]; simpl.
  - rewrite elem_of_union, elem_of_singleton.
    split; intros [H|H]; auto; left; congruence.
  - split; [auto|]. by intros [?|?].
Qed.

Lemma cleanup_active (s : Hook T) : activeController (cleanup s) = None.
Proof. unfold cleanup. by destruct (activeController s) eqn:E. Qed.

Lemma cleanup_frame (s : Hook T) :
  data (cleanup s) = data s ∧ loading (cleanup s) = loading s ∧
  error (cleanup s) = error s ∧ controllers (cleanup s) = controllers s ∧
  inflight (cleanup s) = inflight s ∧ sent (cleanup s) = sent s ∧
  draws (cleanup s) = draws s.
Proof. unfold cleanup. by destruct (activeController s) eqn:E. Qed.

(** ** What the settle path changes *)

Lemma settle_frame c o (s : Hook T) :
  activeController (settle c o s) = activeController s ∧
  controllers (settle c o s) = controllers s ∧
  aborted (settle c o s) = aborted s ∧
  inflight (settle c o s) = inflight s ∖ {[c]} ∧
  sent (settle c o s) = sent s ∧ draws (settle c o s) = draws s.
Proof.
  unfold settle, finally_block, catch_block, signal_aborted. simpl.
  destruct (awaited o) as [e|r]; repeat case_match; done.
Qed.

Lemma settle_data c o (s : Hook T) :
  data (settle c o s) =
  match awaited o with
  | inr result => if decide (c ∈ aborted s) then data s else Some result
  | inl _ => data s
  end.
Proof.
  unfold settle, finally_block, catch_block, signal_aborted. simpl.
  destruct (awaited o) as [e|r]; repeat case_match;
    repeat case_bool_decide; simpl in *; try done.
Qed.

Lemma settle_error c o (s : Hook T) :
  error (settle c o s) =
  match awaited o with
  | inr _ => error s
  | inl e => if decide (Js.name e = "AbortError") then error s
             else Some (Js.message e)
  end.
Proof.
  unfold settle, finally_block, catch_block, signal_aborted. simpl.
  destruct (awaited o) as [e|r]; [|by repeat case_match].
  destruct (String.eqb_spec (Js.name e) "AbortError");
    case_decide; try done; simpl; by repeat case_match.
Qed.

Lemma settle_loading c o (s : Hook T) :
  loading (settle c o s) = if decide (c ∈ aborted s) then loading s else false.
Proof.
  unfold settle, finally_block, catch_block, signal_aborted. simpl.
  destruct (awaited o) as [e|r]; repeat case_match;
    repeat case_bool_decide; simpl in *; try done.
Qed.

(** ** The invariant of the controller bookkeeping *)

(** The stored controller is the latest one created, every other
    controller has been aborted, and only created controllers are aborted
    or in flight. *)
Record Inv (s : Hook T) : Prop := {
  inv_active : ∀ c, activeController s = Some c → S c = controllers s;
  inv_others : ∀ c, c < controllers s → activeController s ≠ Some c → c ∈ aborted s;
  inv_aborted : ∀ c, c ∈ aborted s → c < controllers s;
  inv_inflight : ∀ c, c ∈ inflight s → c < controllers s }.

Lemma fetch_Inv_initial : Inv initial.
Proof. split; simpl; intros c; try done; lia. Qed.

Lemma fetch_Inv_fetchData p s : Inv s → Inv (fetchData randomUUID p s).
Proof.
  intros [Ha Ho Hb Hi].
  split; intros c;
    rewrite ?fetchData_active, ?fetchData_controllers, ?fetchData_aborted,
      ?abort_active_aborted.
  - by intros [= ->].
  - intros Hlt Hne. destruct (decide (c = controllers s)) as [->|Hc]; [done|].
    destruct (decide (activeController s = Some c)); [by left|].
    right. apply Ho; [lia|done].
  - intros [Hc|Hc]; [apply Ha in Hc|apply Hb in Hc]; lia.
  - intros [[-> _]|Hc]%fetchData_inflight; [lia|]. apply Hi in Hc. lia.
Qed.

Lemma fetch_Inv_cleanup s : Inv s → Inv (cleanup s).
Proof.
  intros [Ha Ho Hb Hi].
  destruct (cleanup_frame s) as (_ & _ & _ & Ectl & Einf & _ & _).
  split; intros c; rewrite ?cleanup_active, ?Ectl, ?Einf, ?cleanup_aborted.
  - done.
  - intros Hlt _. destruct (decide (activeController s = Some c)); [by left|].
    right. by apply Ho.
  - intros [Hc|Hc]; [apply Ha in Hc; lia|by apply Hb].
  - apply Hi.
Qed.

Lemma fetch_Inv_settle c o s : Inv s → Inv (settle c o s).
Proof.
  intros [Ha Ho Hb Hi].
  destruct (settle_frame c o s) as (Eact & Ectl & Eab & Einf & _ & _).
  split; intros c'; rewrite ?Eact, ?Ectl, ?Eab, ?Einf; auto.
  rewrite elem_of_difference. intros [? _]. auto.
Qed.

Lemma fetch_Inv_effect p s : Inv s → Inv (effect randomUUID p s).
Proof. unfold effect. case_decide; auto using fetch_Inv_fetchData. Qed.

Lemma fetch_Inv_step s e s' : Inv s → step randomUUID s e = Some s' → Inv s'.
Proof.
  intros HI. destruct e; simpl; try case_decide; intros [= <-];
    auto using fetch_Inv_fetchData, fetch_Inv_effect, fetch_Inv_cleanup, fetch_Inv_settle.
Qed.

Lemma fetch_Inv_run es : ∀ s s', Inv s → run randomUUID s es = Some s' → Inv s'.
Proof.
  induction es as [|e es IH]; simpl; intros s s' HI.
  - by intros [= <-].
  - destruct (step randomUUID s e) as [s1|] eqn:Hs; [|done]. eauto using fetch_Inv_step.
Qed.

Lemma reachable_Inv s : reachable randomUUID s → Inv s.
Proof. intros [es Hes]. eapply fetch_Inv_run; [apply fetch_Inv_initial|done]. Qed.

(** The controller of a call is fresh: it is not aborted when the call
    ends. *)
Lemma fresh_controller_not_aborted (s : Hook T) :
  Inv s → controllers s ∉ aborted (abort_active s).
Proof.
  intros [Ha Ho Hb Hi] [Hc|Hc]%abort_active_aborted;
    [apply Ha in Hc|apply Hb in Hc]; lia.
Qed.

(** ** Race-safe supersession *)

(** C1. In any state the hook can reach, a call of [fetchData] (from the
    mount effect or from [refetch]) first aborts the controller of the
    request in flight, before anything new is sent: after [abort_active]
    every request in flight is aborted and the list of sent requests is
    still the old one. When the call reaches [fetch], the new request then
    leaves with a fresh signal that is not aborted and becomes the stored
    controller; when the [try] block throws before that, nothing is sent.
    When the awaits of a request end, an aborted signal leaves [data] as it
    is; whenever [data] does change, the signal is not aborted, the request
    is the one of the stored controller, and the new [data] is the decoded
    result. A request after which a later one was started never changes
    [data]. *)
Theorem supersession_is_race_safe (s : Hook T) (p : Props) :
  reachable randomUUID s →
  let s0 := abort_active s in
  let s' := fetchData randomUUID p s in
  (sent s0 = sent s ∧ ∀ c, c ∈ inflight s → c ∈ aborted s0) ∧
  (∀ h b, prepared p s = inr (h, b) →
     ∃ r, sent s' = (sent s ++ [r])%list ∧ (req_signal r ∉ inflight s) ∧
          (req_signal r ∉ aborted s') ∧ activeController s' = Some (req_signal r)) ∧
  (∀ e, prepared p s = inl e → sent s' = sent s ∧ inflight s' = inflight s) ∧
  (∀ c, c ∈ inflight s → c ∈ aborted s') ∧
  (∀ c o, c ∈ aborted s → data (settle c o s) = data s) ∧
  (∀ c o, data (settle c o s) ≠ data s →
     (c ∉ aborted s) ∧
     (c ∈ inflight s → activeController s = Some c) ∧
     ∃ result, awaited o = inr result ∧ data (settle c o s) = Some result) ∧
  (∀ c o, S c < controllers s → data (settle c o s) = data s).
Proof.
  intros Hr s0 s'. pose proof (reachable_Inv s Hr) as HI.
  pose proof HI as [Ha Ho Hb Hi].
  destruct (abort_active_frame s) as (_ & _ & _ & Eact & Ectl & Einf & Esent & _).
  assert (∀ c, c ∈ inflight s → c ∈ aborted s0) as Hfirst.
  { intros c Hc. apply abort_active_aborted.
    destruct (decide (activeController s = Some c)); [by left|].
    right. apply Ho; auto. }
  assert (∀ c o, c ∈ aborted s → data (settle c o s) = data s) as Hkeep.
  { intros c o Hc. rewrite settle_data.
    destruct (awaited o); [done|]. by rewrite decide_True. }
  split; [done|]. split; [|split; [|split; [|split; [done|split]]]].
  - intros h b Hp. exists (request_of p s h b). subst s'.
    rewrite (fetchData_sends p s h b Hp). simpl. repeat split.
    + intros Hc%Hi. lia.
    + by apply fresh_controller_not_aborted.
  - intros e Hp. subst s'. by rewrite (fetchData_throws p s e Hp).
  - intros c Hc. subst s'. rewrite fetchData_aborted. by apply Hfirst.
  - intros c o Hne. split; [|split].
    + intros Hc. by apply Hne, Hkeep.
    + intros Hin. destruct (decide (activeController s = Some c)) as [|Hn]; [done|].
      destruct Hne. apply Hkeep, Ho; auto.
    + rewrite settle_data in *. destruct (awaited o) as [e|result]; [done|].
      case_decide; [done|]. by exists result.
  - intros c o Hc. apply Hkeep, Ho; [lia|].
    intros Hact%Ha. lia.
Qed.

(** ** The idempotency key *)

Lemma last_sent_fetchData p (s : Hook T) h b :
  prepared p s = inr (h, b) →
  last (sent (fetchData randomUUID p s)) = Some (request_of p s h b).
Proof. intros Hp. rewrite (fetchData_sends p s h b Hp). apply last_snoc. Qed.

Lemma prepared_key p (s : Hook T) h b :
  prepared p s = inr (h, b) →
  h !! "Idempotency-Key" =
  if decide (default GET (method (options p)) = POST)
  then match randomUUID (draws s) with inr u => Some u | inl _ => None end
  else spread (default (HeadersRecord ∅) (headers (options p))) !! "Idempotency-Key".
Proof.
  intros [_ Hh]%prepared_inv. case_decide.
  - destruct Hh as (u & -> & ->). apply lookup_insert_eq.
  - subst h. unfold base_headers.
    rewrite lookup_union_l; [done|]. by apply lookup_singleton_ne.
Qed.

Lemma prepared_key_post p (s : Hook T) h b :
  prepared p s = inr (h, b) →
  default GET (method (options p)) = POST →
  is_Some (h !! "Idempotency-Key").
Proof.
  intros Hp Hm. pose proof (prepared_inv p s h b Hp) as [_ Hh].
  rewrite decide_True in Hh by done. destruct Hh as (u & _ & ->).
  rewrite lookup_insert_eq. eauto.
Qed.

Definition keyed (r : Request) : Prop :=
  req_method r = POST → is_Some (idempotency_key r).

Lemma keyed_step (s s' : Hook T) e :
  Forall keyed (sent s) → step randomUUID s e = Some s' → Forall keyed (sent s').
Proof.
  assert (∀ p (s0 : Hook T), Forall keyed (sent s0) →
                  Forall keyed (sent (fetchData randomUUID p s0))) as Hf.
  { intros p s0 H0. destruct (prepared p s0) as [e0|[h b]] eqn:E.
    - by rewrite (fetchData_throws p s0 e0 E).
    - rewrite (fetchData_sends p s0 h b E). simpl.
      rewrite Forall_app, Forall_singleton. split; [done|].
      intros Hm. by apply (prepared_key_post p s0 h b). }
  assert (∀ s0 : Hook T, sent (cleanup s0) = sent s0) as Hc.
  { intros s0. by destruct (cleanup_frame s0) as (_ & _ & _ & _ & _ & -> & _). }
  intros Hs. destruct e as [p|p|p|c o|]; simpl; try case_decide;
    intros [= <-]; unfold effect; try case_decide;
    rewrite ?Hc; auto; try (apply Hf; by rewrite Hc).
  by destruct (settle_frame c o s) as (_ & _ & _ & _ & -> & _).
Qed.

Lemma keyed_run es : ∀ (s s' : Hook T),
  Forall keyed (sent s) → run randomUUID s es = Some s' → Forall keyed (sent s').
Proof.
  induction es as [|e es IH]; simpl; intros s s' Hs.
  - by intros [= <-].
  - destruct (step randomUUID s e) as [s1|] eqn:E; [|done]. eauto using keyed_step.
Qed.

(** C2, as the code has it. Every request the hook issues with the method
    POST carries an Idempotency-Key header, the UUID generated for that
    call. A request with any other method, PUT and DELETE included, carries
    the header only when the caller's own headers have it. *)
Theorem post_requests_carry_idempotency_key (s : Hook T) (r : Request) (p : Props) :
  reachable randomUUID s →
  (r ∈ sent s → req_method r = POST → is_Some (idempotency_key r)) ∧
  (∀ h b, prepared p s = inr (h, b) →
     ∃ r', last (sent (fetchData randomUUID p s)) = Some r' ∧
           req_method r' = default GET (method (options p)) ∧
           (req_method r' = POST → is_Some (idempotency_key r')) ∧
           idempotency_key r' =
             if decide (req_method r' = POST)
             then match randomUUID (draws s) with
                  | inr uuid => Some uuid
                  | inl _ => None
                  end
             else spread (default (HeadersRecord ∅) (headers (options p)))
                    !! "Idempotency-Key").
Proof.
  intros [es Hes]. split.
  - intros Hr.
    assert (Forall keyed (sent s)) as H.
    { apply (keyed_run es initial s); [constructor|done]. }
    rewrite Forall_forall in H. by apply H.
  - intros h b Hp. exists (request_of p s h b).
    split; [by apply last_sent_fetchData|]. split; [done|]. split.
    + intros Hm. by apply (prepared_key_post p s h b).
    + by apply (prepared_key p s h b).
Qed.

(** C5, as the code has it. The key of a POST is the UUID that the call of
    [crypto.randomUUID()] made by that very invocation returns, whatever the
    URL, the body and the headers are; a second invocation makes the next
    call, so the two keys are equal exactly when the platform returned the
    same UUID twice. *)
Theorem idempotency_key_is_a_fresh_draw (s : Hook T) (p1 p2 : Props)
    (u1 u2 : string) (b1 b2 : option string) :
  default GET (method (options p1)) = POST →
  default GET (method (options p2)) = POST →
  randomUUID (draws s) = inr u1 →
  randomUUID (S (draws s)) = inr u2 →
  body_init (body (options p1)) = inr b1 →
  body_init (body (options p2)) = inr b2 →
  let s1 := fetchData randomUUID p1 s in
  let s2 := fetchData randomUUID p2 s1 in
  ∃ r1 r2,
    last (sent s1) = Some r1 ∧ last (sent s2) = Some r2 ∧
    idempotency_key r1 = Some u1 ∧
    idempotency_key r2 = Some u2 ∧
    (idempotency_key r1 = idempotency_key r2 ↔ u1 = u2).
Proof.
  intros Hm1 Hm2 Hu1 Hu2 Hb1 Hb2 s1 s2.
  pose proof (prepared_post p1 s u1 b1 Hm1 Hu1 Hb1) as Hp1.
  assert (draws s1 = S (draws s)) as Hd.
  { subst s1. rewrite fetchData_draws. unfold draws_after.
    by rewrite decide_True. }
  assert (randomUUID (draws s1) = inr u2) as Hu2' by (by rewrite Hd).
  pose proof (prepared_post p2 s1 u2 b2 Hm2 Hu2' Hb2) as Hp2.
  eexists _, _.
  split; [exact (last_sent_fetchData _ _ _ _ Hp1)|].
  split; [exact (last_sent_fetchData _ _ _ _ Hp2)|].
  unfold idempotency_key. simpl. rewrite !lookup_insert_eq.
  repeat split; congruence.
Qed.

(** ** Errors *)

(** C6. When the awaits of a request end with a response that is not ok and
    the request's signal is not aborted, [error] becomes
    "Error: <status> <statusText>", [loading] becomes false and [data] stays
    as it is. When they end with an AbortError, [error] (and [data]) stay as
    they are. *)
Theorem settle_reports_http_errors_and_ignores_aborts (s : Hook T) (c : nat) :
  (∀ r json, ok r = false → c ∉ aborted s →
     let s' := settle c (Responded r json) s in
     error s' = Some ("Error: " ++ pretty (status r) ++ " " ++ statusText r) ∧
     loading s' = false ∧
     data s' = data s) ∧
  (∀ o e, awaited o = inl e → Js.name e = "AbortError" →
     error (settle c o s) = error s ∧ data (settle c o s) = data s).
Proof.
  split.
  - intros r json Hok Hc s'. subst s'.
    rewrite settle_error, settle_loading, settle_data. simpl. rewrite Hok. simpl.
    by rewrite decide_False by done.
  - intros o e Ho He. rewrite settle_error, settle_data, Ho.
    by rewrite decide_True.
Qed.

(** ** The effect *)

(** C8. The effect fetches exactly when [options.immediate !== false]: it
    then is a call of [fetchData], which creates a controller and, when its
    [try] block reaches [fetch], sends a request, in particular when the
    option is omitted; otherwise it leaves the hook as it is. In both cases
    [refetch] can be called afterwards and is a call of [fetchData] again.
    The cleanup aborts the stored controller, hence every request still in
    flight, and clears the ref. *)
Theorem effect_fetches_unless_immediate_is_false (s : Hook T) (p p' : Props) :
  reachable randomUUID s →
  let s1 := effect randomUUID p s in
  (immediate (options p) ≠ Some false ↔ controllers s1 ≠ controllers s) ∧
  (immediate (options p) ≠ Some false → s1 = fetchData randomUUID p s) ∧
  (immediate (options p) = Some false → s1 = s) ∧
  (∀ h b, prepared p s = inr (h, b) →
     (immediate (options p) ≠ Some false ↔ sent s1 ≠ sent s) ∧
     (immediate (options p) = None → ∃ r, sent s1 = (sent s ++ [r])%list)) ∧
  (∃ s2, step randomUUID s1 (Refetch p') = Some s2 ∧
         s2 = fetchData randomUUID p' s1 ∧
         controllers s2 = S (controllers s1) ∧
         ∀ h b, prepared p' s1 = inr (h, b) →
           ∃ r, sent s2 = (sent s1 ++ [r])%list) ∧
  activeController (cleanup s) = None ∧
  (∀ c, activeController s = Some c → c ∈ aborted (cleanup s)) ∧
  (∀ c, c ∈ inflight s → c ∈ aborted (cleanup s)).
Proof.
  intros [Ha Ho Hb Hi]%reachable_Inv s1.
  assert (immediate (options p) ≠ Some false → s1 = fetchData randomUUID p s) as Hyes.
  { intros Hi'. subst s1. unfold effect. by rewrite decide_True. }
  assert (immediate (options p) = Some false → s1 = s) as Hno.
  { intros Hi'. subst s1. unfold effect. rewrite decide_False; [done|]. by intros []. }
  split; [|split; [done|split; [done|split; [|split; [|split; [|split]]]]]].
  - split.
    + intros ->%Hyes. rewrite fetchData_controllers. lia.
    + intros Hne ->%Hno. done.
  - intros h b Hp. split; [split|].
    + intros ->%Hyes. rewrite (fetchData_sends p s h b Hp). simpl.
      intros Heq%(f_equal length). rewrite length_app in Heq. simpl in Heq. lia.
    + intros Hne ->%Hno. done.
    + intros Hnone. rewrite Hyes by (by rewrite Hnone).
      rewrite (fetchData_sends p s h b Hp). simpl. eauto.
  - exists (fetchData randomUUID p' s1). split; [done|]. split; [done|].
    split; [apply fetchData_controllers|].
    intros h b Hp. rewrite (fetchData_sends p' s1 h b Hp). simpl. eauto.
  - apply cleanup_active.
  - intros c Hc. apply cleanup_aborted. by left.
  - intros c Hc. apply cleanup_aborted.
    destruct (decide (activeController s = Some c)); [by left|].
    right. apply Ho; auto.
Qed.

End Facts.

(** ** Concrete runs *)

(** Two UUIDs, as two calls of [crypto.randomUUID()] may return them. *)
Definition sample_randomUUID (i : nat) : Js.Error + string :=
  match i with
  | 0 => inr "6f1c2e7a-0b1d-4c3e-9a54-1f0e8d2b7c11"
  | _ => inr "b3a9d4f0-52c7-4e18-8f6a-0c9e7d5a2b44"
  end.

(** The string "x". *)
Definition string_x : Js.Value :=
  {| Js.String_ := Js.lit "x"; Js.truthy := true;
     Js.JSON_stringify := inr (Some (QueryFacts.quote ++ "x" ++ QueryFacts.quote)) |}.

(** [useFetch('/api/transactions', { page: 1 })] *)
Definition list_props : Props :=
  {| baseUrl := "/api/transactions";
     params := Some [(Js.lit "page", QueryFacts.number_1)];
     options := {| method := None; body := Js.undefined;
                   headers := None; immediate := None |} |}.

(** [useFetch('/api/pay', null, { method: 'POST', immediate: false })] *)
Definition pay_props : Props :=
  {| baseUrl := "/api/pay";
     params := None;
     options := {| method := Some POST; body := Js.undefined;
                   headers := None; immediate := Some false |} |}.

(** [useFetch('/api/items/7', null, { method: 'PUT', body: 'x', immediate: false })] *)
Definition put_props : Props :=
  {| baseUrl := "/api/items/7";
     params := None;
     options := {| method := Some PUT; body := string_x;
                   headers := None; immediate := Some false |} |}.

(** [useFetch('/api/items/7', null, { method: 'DELETE', immediate: false })] *)
Definition delete_props : Props :=
  {| baseUrl := "/api/items/7";
     params := None;
     options := {| method := Some DELETE; body := Js.undefined;
                   headers := None; immediate := Some false |} |}.

(** The hook right after the mount effect of [list_props]: request 0 is in
    flight. *)
Definition listing : Hook string :=
  effect sample_randomUUID list_props initial.

Lemma listing_reachable : reachable sample_randomUUID listing.
Proof. exists [Mount list_props]. reflexivity. Defined.

Example listing_request :
  req_url <$> sent listing = ["/api/transactions?page=1"] ∧
  req_method <$> sent listing = [GET] ∧
  req_body <$> sent listing = [None] ∧
  req_signal <$> sent listing = [0] ∧
  loading listing = true.
Proof. vm_compute. done. Qed.

Example not_found_message :
  error (settle 0 (Responded {| ok := false; status := 404; statusText := "Not Found" |}
                     (inl {| Js.name := "SyntaxError"; Js.message := "" |})) listing)
  = Some "Error: 404 Not Found".
Proof. vm_compute. reflexivity. Qed.

(** A second fetch while request 0 is in flight, then the late answer of
    request 0: [data] stays null and [loading] stays true. *)
Example late_answer_is_dropped :
  let s := fetchData sample_randomUUID list_props listing in
  let s' := settle 0 (Responded {| ok := true; status := 200; statusText := "OK" |}
                        (inr "stale")) s in
  data s' = None ∧ loading s' = true ∧
  data (settle 1 (Responded {| ok := true; status := 200; statusText := "OK" |}
                    (inr "fresh")) s') = Some "fresh".
Proof. vm_compute. done. Qed.

Lemma supersession_is_race_safe_witness :
  reachable sample_randomUUID listing ∧
  0 ∈ inflight listing ∧
  0 ∈ aborted (fetchData sample_randomUUID list_props listing).
Proof.
  assert (0 ∈ inflight listing) as Hin.
  { apply (bool_decide_unpack _). vm_compute. exact I. }
  split; [exact listing_reachable|]. split; [exact Hin|].
  destruct (supersession_is_race_safe sample_randomUUID listing list_props
              listing_reachable) as (_ & _ & _ & Hab & _).
  exact (Hab 0 Hin).
Defined.

(** C2 fails for PUT and for DELETE: the requests of [put_props] and of
    [delete_props] leave without the header. *)
Lemma put_and_delete_requests_have_no_idempotency_key :
  (reachable sample_randomUUID (fetchData (T:=string) sample_randomUUID put_props initial) ∧
   ∃ r, r ∈ sent (fetchData (T:=string) sample_randomUUID put_props initial) ∧
        req_method r = PUT ∧
        idempotency_key r = None) ∧
  (reachable sample_randomUUID (fetchData (T:=string) sample_randomUUID delete_props initial) ∧
   ∃ r, r ∈ sent (fetchData (T:=string) sample_randomUUID delete_props initial) ∧
        req_method r = DELETE ∧
        idempotency_key r = None).
Proof.
  split.
  - split; [exists [Refetch put_props]; reflexivity|].
    eexists. split; [|split].
    + erewrite fetchData_sends by reflexivity. simpl.
      apply list_elem_of_singleton. reflexivity.
    + reflexivity.
    + reflexivity.
  - split; [exists [Refetch delete_props]; reflexivity|].
    eexists. split; [|split].
    + erewrite fetchData_sends by reflexivity. simpl.
      apply list_elem_of_singleton. reflexivity.
    + reflexivity.
    + reflexivity.
Qed.

Lemma post_requests_carry_idempotency_key_witness :
  is_Some (idempotency_key
             (request_of pay_props (initial (T:=string))
                (<["Idempotency-Key" := "6f1c2e7a-0b1d-4c3e-9a54-1f0e8d2b7c11"]>
                   (base_headers pay_props)) None)).
Proof.
  refine (proj1 (post_requests_carry_idempotency_key sample_randomUUID
                   (fetchData (T:=string) sample_randomUUID pay_props initial)
                   _ pay_props _) _ _).
  - exists [Refetch pay_props]. reflexivity.
  - erewrite fetchData_sends by reflexivity. simpl.
    apply list_elem_of_singleton. reflexivity.
  - reflexivity.
Defined.

(** C5 fails: [refetch] called twice with the same URL, method and body
    sends two different keys. *)
Lemma retry_carries_another_idempotency_key :
  ∃ r1 r2,
    sent (fetchData (T:=string) sample_randomUUID pay_props
            (fetchData sample_randomUUID pay_props initial)) = [r1; r2] ∧
    req_url r1 = req_url r2 ∧ req_method r1 = req_method r2 ∧
    req_body r1 = req_body r2 ∧
    idempotency_key r1 = Some "6f1c2e7a-0b1d-4c3e-9a54-1f0e8d2b7c11" ∧
    idempotency_key r2 = Some "b3a9d4f0-52c7-4e18-8f6a-0c9e7d5a2b44" ∧
    idempotency_key r1 ≠ idempotency_key r2.
Proof.
  eexists _, _. split.
  - erewrite (fetchData_sends _ pay_props (fetchData _ pay_props initial))
      by reflexivity.
    erewrite (fetchData_sends _ pay_props initial) by reflexivity.
    reflexivity.
  - unfold idempotency_key. simpl. rewrite !lookup_insert_eq.
    repeat split. intros [= ].
Qed.

Lemma idempotency_key_is_a_fresh_draw_witness :
  ∃ r1 r2,
    last (sent (fetchData (T:=string) sample_randomUUID pay_props initial)) = Some r1 ∧
    last (sent (fetchData (T:=string) sample_randomUUID pay_props
                  (fetchData sample_randomUUID pay_props initial))) = Some r2 ∧
    idempotency_key r1 = Some "6f1c2e7a-0b1d-4c3e-9a54-1f0e8d2b7c11" ∧
    idempotency_key r2 = Some "b3a9d4f0-52c7-4e18-8f6a-0c9e7d5a2b44" ∧
    (idempotency_key r1 = idempotency_key r2 ↔
     "6f1c2e7a-0b1d-4c3e-9a54-1f0e8d2b7c11" = "b3a9d4f0-52c7-4e18-8f6a-0c9e7d5a2b44").
Proof.
  exact (idempotency_key_is_a_fresh_draw sample_randomUUID
           (initial (T:=string)) pay_props pay_props _ _ None None
           eq_refl eq_refl eq_refl eq_refl eq_refl eq_refl).
Defined.

(** What [fetch] rejects with once its signal is aborted. *)
Definition abort_error : Js.Error :=
  {| Js.name := "AbortError"; Js.message := "The user aborted a request." |}.

Lemma settle_reports_http_errors_and_ignores_aborts_witness :
  error (settle 0 (Responded {| ok := false; status := 404; statusText := "Not Found" |}
                     (inl {| Js.name := "SyntaxError"; Js.message := "" |})) listing)
  = Some "Error: 404 Not Found" ∧
  error (settle 0 (FetchRejected abort_error) (cleanup listing))
  = error (cleanup listing).
Proof.
  split.
  - refine (proj1 (proj1 (settle_reports_http_errors_and_ignores_aborts listing 0)
                     {| ok := false; status := 404; statusText := "Not Found" |}
                     _ eq_refl _)).
    apply (bool_decide_unpack _). vm_compute. exact I.
  - exact (proj1 (proj2 (settle_reports_http_errors_and_ignores_aborts (cleanup listing) 0)
                    (FetchRejected abort_error) abort_error eq_refl eq_refl)).
Defined.

Lemma effect_fetches_unless_immediate_is_false_witness :
  effect (T:=string) sample_randomUUID pay_props initial = initial ∧
  controllers (effect (T:=string) sample_randomUUID list_props initial)
  ≠ controllers (initial (T:=string)) ∧
  sent (effect (T:=string) sample_randomUUID list_props initial)
  ≠ sent (initial (T:=string)).
Proof.
  assert (reachable (T:=string) sample_randomUUID initial) as Hr
    by (exists []; reflexivity).
  split; [|split].
  - destruct (effect_fetches_unless_immediate_is_false sample_randomUUID
                initial pay_props pay_props Hr) as (_ & _ & Hno & _).
    exact (Hno eq_refl).
  - destruct (effect_fetches_unless_immediate_is_false sample_randomUUID
                initial list_props pay_props Hr) as (Hiff & _).
    apply Hiff. intros [= ].
  - destruct (effect_fetches_unless_immediate_is_false sample_randomUUID
                initial list_props pay_props Hr) as (_ & _ & _ & Hsent & _).
    refine (proj1 (proj1 (Hsent _ _ eq_refl)) _). intros [= ].
Defined.

End FetchFacts.

(* ===================================================================== *)
(** * Facts about useThrottle *)
(* ===================================================================== *)

Module ThrottleFacts.
Import UseThrottle.

Local Open Scope Z_scope.

(** ** Numbers and the delay of a timer *)

Lemma floor_le_int q n : (q <= inject_Z n)%Q → Qfloor q ≤ n.
Proof. intros H%Qfloor_resp_le. by rewrite Qfloor_Z in H. Qed.

Lemma int_le_floor q n : (inject_Z n <= q)%Q → n ≤ Qfloor q.
Proof. intros H%Qfloor_resp_le. by rewrite Qfloor_Z in H. Qed.

Lemma floor_sub q n : Qfloor (q - inject_Z n) = Qfloor q - n.
Proof.
  pose proof (Qfloor_le q) as H1. pose proof (Qlt_floor q) as H2.
  pose proof (Qfloor_le (q - inject_Z n)) as H3.
  pose proof (Qlt_floor (q - inject_Z n)) as H4.
  rewrite inject_Z_plus in H2, H4.
  assert (inject_Z (Qfloor (q - inject_Z n) + n) < inject_Z (Qfloor q + 1))%Q as Ha.
  { rewrite !inject_Z_plus. lra. }
  assert (inject_Z (Qfloor q) < inject_Z (Qfloor (q - inject_Z n) + n + 1))%Q as Hb.
  { rewrite !inject_Z_plus. lra. }
  rewrite <- Zlt_Qlt in Ha, Hb. lia.
Qed.

Lemma ge_int_Finite n q : Js.ge_int n (Js.Finite q) = true ↔ (q <= inject_Z n)%Q.
Proof. apply Qle_bool_iff. Qed.

(** Inside the range of a timer, the delay [interval - timeSinceLastUpdate]
    is waited for up to its fraction. *)
Lemma timer_delay_in_range q since :
  (q <= 2147483647)%Q → 0 ≤ since → Js.ge_int since (Js.Finite q) = false →
  Js.timer_delay (Js.sub_int (Js.Finite q) since) = Qfloor q - since.
Proof.
  intros Hmax Hsince Hlt.
  assert (inject_Z since < q)%Q as Hq.
  { apply Qnot_le_lt. intros Hle%ge_int_Finite. congruence. }
  unfold Js.timer_delay, Js.sub_int, Js.truncate.
  rewrite (proj2 (Qle_bool_iff 0 (q - inject_Z since))) by lra.
  rewrite floor_sub.
  assert (since ≤ Qfloor q) by (apply int_le_floor; lra).
  assert (Qfloor q ≤ 2147483647) by (by apply floor_le_int).
  rewrite (proj2 (Z.leb_le 0 _)), (proj2 (Z.leb_le _ 2147483647)) by lia.
  done.
Qed.

#[local] Arguments Js.timer_delay : simpl never.
#[local] Arguments Js.sub_int : simpl never.
#[local] Arguments Js.ge_int : simpl never.

Section Facts.

Context {T : Type} (q : Q).

(** Each time of the list is at least [gap] after the one before it, the
    first one at least [gap] after [prev]. *)
Fixpoint spaced (gap prev : Z) (ts : list Z) : Prop :=
  match ts with
  | [] => True
  | t :: ts' => prev + gap ≤ t ∧ spaced gap t ts'
  end.

Lemma spaced_snoc gap ts : ∀ prev t,
  spaced gap prev ts → default prev (last ts) + gap ≤ t → spaced gap prev (ts ++ [t]).
Proof.
  induction ts as [|a ts IH]; simpl; intros prev t.
  - auto.
  - intros [Ha Hts] Ht. split; [done|]. apply IH; [done|].
    rewrite last_cons in Ht. by destruct (last ts).
Qed.

Lemma spaced_consecutive gap ts : ∀ prev i a b,
  spaced gap prev ts → ts !! i = Some a → ts !! S i = Some b → a + gap ≤ b.
Proof.
  induction ts as [|x ts IH]; intros prev i a b; [done|].
  simpl. intros [Hx Hts]. destruct i as [|i]; simpl.
  - intros [= ->]. destruct ts as [|y ts]; simpl; [done|].
    intros [= ->]. by destruct Hts.
  - apply (IH x).  done.
Qed.

(** The invariant of a run that started with the render at [t0] of [v0],
    for a finite interval [q] inside the range of a timer. *)
Record Inv (t0 : Z) (v0 : T) (s : Hook T) : Prop := {
  inv_clock : lastUpdated s ≤ clock s;
  inv_timer : ∀ t, timer s = Some t → lastUpdated s + Qfloor q ≤ due t;
  inv_last : lastUpdated s = default t0 (last (updates s).*1);
  inv_value : throttledValue s = default v0 (last (updates s).*2);
  inv_spaced : spaced (Qfloor q) t0 (updates s).*1 }.

Lemma throttle_Inv_render t0 v0 : Inv t0 v0 (render t0 v0).
Proof. split; simpl; try done. Qed.

Lemma throttle_Inv_update t0 v0 now value (s : Hook T) :
  Inv t0 v0 s → timer s = None → clock s = now → lastUpdated s + Qfloor q ≤ now →
  lastUpdated s ≤ now →
  Inv t0 v0 (update now value s).
Proof.
  intros [Hc Ht Hl Hv Hs] Hnone Hclk Hge Hle.
  split; unfold update; cbn [throttledValue lastUpdated timer clock updates];
    rewrite ?fmap_app; cbn [fmap list_fmap fst snd]; rewrite ?last_snoc.
  - lia.
  - by rewrite Hnone.
  - done.
  - done.
  - apply spaced_snoc; [done|]. by rewrite <- Hl.
Qed.

Lemma throttle_Inv_step t0 v0 (s s' : Hook T) e :
  (q <= 2147483647)%Q →
  Inv t0 v0 s → step (Js.Finite q) s e = Some s' → Inv t0 v0 s'.
Proof.
  intros Hmax HI. pose proof HI as [Hc Ht Hl Hv Hs].
  destruct e as [now value|now|]; simpl.
  - case_decide as Hnow; [|done]. intros [= <-]. unfold effect.
    cbn [lastUpdated clearTimeout tick].
    destruct (Js.ge_int (now - lastUpdated s) (Js.Finite q)) eqn:Hge.
    + apply ge_int_Finite, floor_le_int in Hge.
      apply throttle_Inv_update; simpl; try done; try lia.
      split; simpl; try done. lia.
    + split; simpl; try done; [lia|]. intros t [= <-]. simpl.
      rewrite (timer_delay_in_range q (now - lastUpdated s)) by (done || lia).
      lia.
  - destruct (timer s) as [t|] eqn:Etimer; [|done].
    case_decide as Hnow; [|done]. intros [= <-]. unfold callback.
    pose proof (Ht t eq_refl).
    apply throttle_Inv_update; simpl; try done; try lia.
    split; simpl; try done. lia.
  - intros [= <-]. split; simpl; try done.
Qed.

Lemma throttle_Inv_run t0 v0 es : ∀ (s s' : Hook T),
  (q <= 2147483647)%Q →
  Inv t0 v0 s → run (Js.Finite q) s es = Some s' → Inv t0 v0 s'.
Proof.
  induction es as [|e es IH]; simpl; intros s s' Hmax HI.
  - by intros [= <-].
  - destruct (step (Js.Finite q) s e) as [s1|] eqn:E; [|done].
    eauto using throttle_Inv_step.
Qed.

(** C3, as the code has it. For a fixed interval of at most 2^31-1
    milliseconds, the longest delay a timer keeps, whatever the sequence of
    input values and whenever they come: any two consecutive updates of the
    throttled state are at least the interval without its fraction apart,
    which is the whole interval when it is a whole number of milliseconds;
    so is the first update from the first render; and the throttled value is
    the one of the latest update (the initial value before the first one),
    so it changes at most once in that time. *)
Theorem throttled_updates_are_an_interval_apart
    (t0 : Z) (v0 : T) (es : list (Event T)) (s : Hook T) :
  (q <= 2147483647)%Q →
  run (Js.Finite q) (render t0 v0) es = Some s →
  (∀ i t1 v1 t2 v2,
     updates s !! i = Some (t1, v1) → updates s !! S i = Some (t2, v2) →
     t1 + Qfloor q ≤ t2) ∧
  (∀ z, (q == inject_Z z)%Q →
     ∀ i t1 v1 t2 v2,
       updates s !! i = Some (t1, v1) → updates s !! S i = Some (t2, v2) →
       t1 + z ≤ t2) ∧
  (∀ t v, updates s !! 0%nat = Some (t, v) → t0 + Qfloor q ≤ t) ∧
  throttledValue s = default v0 (last (updates s).*2).
Proof.
  intros Hmax Hrun.
  destruct (throttle_Inv_run t0 v0 es _ _ Hmax (throttle_Inv_render t0 v0) Hrun)
    as [_ _ _ Hv Hs].
  assert (∀ i t1 v1 t2 v2,
     updates s !! i = Some (t1, v1) → updates s !! S i = Some (t2, v2) →
     t1 + Qfloor q ≤ t2) as Hgap.
  { intros i t1 v1 t2 v2 H1 H2.
    apply (spaced_consecutive (Qfloor q) (updates s).*1 t0 i); [done|..];
      rewrite list_lookup_fmap; [by rewrite H1|by rewrite H2]. }
  split; [done|]. split; [|split; [|done]].
  - intros z Hz i t1 v1 t2 v2 H1 H2.
    assert (Qfloor q = z) as <-; [|by eapply Hgap].
    rewrite <- (Qfloor_Z z). by apply Qfloor_comp.
  - intros t v H0. destruct (updates s) as [|[t' v'] l]; [done|].
    simpl in *. injection H0 as -> ->. by destruct Hs.
Qed.

End Facts.

(** A burst of inputs against an interval of one second: three inputs in
    the first 200 ms give one update when the timer runs, an input half a
    second later waits, and an input after the interval updates at once. *)
Definition burst : list (Event string) :=
  [Effect 0 "a"; Effect 100 "b"; Effect 200 "c"; Fire 1003;
   Effect 1500 "d"; Effect 2100 "e"].

Example burst_updates :
  updates <$> run (Js.Finite 1000) (render 0 "a") burst
  = Some [(1003, "c"); (2100, "e")].
Proof. vm_compute. reflexivity. Qed.

Example timer_cannot_run_early :
  run (Js.Finite 1000) (render 0 "a") [Effect 0 "a"; Effect 100 "b"; Fire 999] = None.
Proof. vm_compute. reflexivity. Qed.

(** With [NaN] or [Infinity] as the interval every input waits for a timer
    of no delay. *)
Example not_a_number_interval :
  updates <$> run Js.NaN (render 0 "a") [Effect 0 "a"; Fire 0; Effect 1 "b"; Fire 1]
  = Some [(0, "a"); (1, "b")].
Proof. vm_compute. reflexivity. Qed.

Lemma throttled_updates_are_an_interval_apart_witness :
  ∃ s, run (Js.Finite 1000) (render 0 "a") burst = Some s ∧
       updates s = [(1003, "c"); (2100, "e")] ∧
       1003 + 1000 ≤ 2100.
Proof.
  eexists. split; [vm_compute; reflexivity|]. split; [reflexivity|].
  refine (proj1 (proj2 (throttled_updates_are_an_interval_apart 1000 0 "a" burst _
                          (Qle_bool_imp_le 1000 2147483647 eq_refl) eq_refl))
            1000 _ 0%nat 1003 "c" 2100 "e" eq_refl eq_refl).
  reflexivity.
Defined.

(** C3 fails beyond the range of a timer and for an interval with a
    fraction. With an interval of 3000000000 ms the delay of every timer is
    out of range, the timers run at once, and two updates are 100 ms apart.
    With an interval of 2.5 ms the delays 2.5 and 1.5 are cut to 2 and 1, and
    two updates are 2 ms apart. *)
Lemma throttle_fails_out_of_range_and_for_fractions :
  (updates <$> run (Js.Finite 3000000000) (render 0 "a")
                 [Effect 0 "a"; Fire 1; Effect 100 "b"; Fire 101]
   = Some [(1, "a"); (101, "b")] ∧
   ¬ (inject_Z 1 + 3000000000 <= inject_Z 101)%Q) ∧
  (updates <$> run (Js.Finite (5 # 2)) (render 0 "a")
                 [Effect 0 "a"; Fire 2; Effect 3 "b"; Fire 4]
   = Some [(2, "a"); (4, "b")] ∧
   ¬ (inject_Z 2 + (5 # 2) <= inject_Z 4)%Q).
Proof.
  split; (split; [vm_compute; reflexivity|]);
    intros H%Qle_bool_iff; vm_compute in H; discriminate H.
Qed.

End ThrottleFacts.

(* ===================================================================== *)
(** * Facts about useDebounce *)
(* ===================================================================== *)

Module DebounceFacts.
Import UseDebounce.

Local Open Scope Z_scope.

Section Facts.

Context {T : Type} (delay : Z).

(** Every update of the history comes right after the input whose value it
    takes, and at least [delay] after every input before it. *)
Definition quiet (h : list (Entry T)) : Prop :=
  ∀ h1 h2 t v, h = (h1 ++ Update t v :: h2)%list →
    (∃ h0 ti, h1 = (h0 ++ [Input ti v])%list) ∧
    (∀ ti vi, Input ti vi ∈ h1 → ti + delay ≤ t).

Lemma snoc_split {A} (h h1 h2 : list A) (x u : A) :
  (h ++ [x] = h1 ++ u :: h2)%list →
  (h2 = [] ∧ h = h1 ∧ x = u) ∨ (∃ h2', h2 = (h2' ++ [x])%list ∧ h = (h1 ++ u :: h2')%list).
Proof.
  destruct h2 as [|y h2 _] using rev_ind.
  - intros [-> ->]%app_inj_tail. by left.
  - rewrite app_comm_cons, app_assoc. intros [-> ->]%app_inj_tail.
    right. by exists h2.
Qed.

Lemma quiet_nil : quiet [].
Proof. intros [|??] ??? Heq; discriminate Heq. Qed.

Lemma quiet_input h now value : quiet h → quiet (h ++ [Input now value]).
Proof.
  intros Hq h1 h2 t v [(_ & _ & [=])|(h2' & -> & ->)]%snoc_split.
  by apply (Hq h1 h2').
Qed.

Lemma quiet_update h0 ti now value :
  quiet (h0 ++ [Input ti value]) →
  (∀ t v, Input t v ∈ (h0 ++ [Input ti value])%list → t + delay ≤ now) →
  quiet ((h0 ++ [Input ti value]) ++ [Update now value]).
Proof.
  intros Hq Hall h1 h2 t v [(-> & <- & [= <- <-])|(h2' & -> & Heq)]%snoc_split.
  - split; [by exists h0, ti|done].
  - by apply (Hq h1 h2').
Qed.

Lemma updated_app (h1 h2 : list (Entry T)) :
  updated (h1 ++ h2) = (updated h1 ++ updated h2)%list.
Proof.
  induction h1 as [|[t v|t v] h1 IH]; simpl; [done|done|]. by rewrite IH.
Qed.

(** The invariant of a run that started with the render of [v0]: the
    debounced value is the one of the latest update; no input is later than
    the clock; and a pending timer is the one the cleanup will clear, it
    belongs to the latest entry, an input, and is due [delay] after it. *)
Record Inv (v0 : T) (s : Hook T) : Prop := {
  inv_quiet : quiet (history s);
  inv_value : debouncedValue s = default v0 (last (updated (history s)));
  inv_clock : ∀ t v, Input t v ∈ history s → t ≤ clock s;
  inv_timer : ∀ id tm, timers s !! id = Some tm →
    handler s = Some id ∧
    ∃ h0 ti, history s = (h0 ++ [Input ti (captured tm)])%list ∧
             due tm = ti + delay ∧ ti = clock s }.

Lemma debounce_Inv_render t0 v0 : Inv v0 (render t0 v0).
Proof.
  split; simpl.
  - apply quiet_nil.
  - done.
  - by intros ?? ?%elem_of_nil.
  - intros id tm. by rewrite lookup_empty.
Qed.

(** After the cleanup no timer is pending. *)
Lemma cleanup_timers v0 (s : Hook T) : Inv v0 s → timers (cleanup s) = ∅.
Proof.
  intros [_ _ _ Ht]. apply map_eq. intros id. rewrite lookup_empty.
  unfold cleanup. destruct (handler s) as [id'|] eqn:Eh; simpl.
  - destruct (decide (id' = id)) as [->|Hne]; [apply lookup_delete_eq|].
    rewrite lookup_delete_ne by done.
    destruct (timers s !! id) as [tm|] eqn:E; [|done].
    destruct (Ht id tm E) as [? _]. congruence.
  - destruct (timers s !! id) as [tm|] eqn:E; [|done].
    destruct (Ht id tm E) as [? _]. congruence.
Qed.

Lemma debounce_cleanup_frame (s : Hook T) :
  debouncedValue (cleanup s) = debouncedValue s ∧
  clock (cleanup s) = clock s ∧ history (cleanup s) = history s ∧
  next (cleanup s) = next s.
Proof. unfold cleanup. by destruct (handler s). Qed.

Lemma debounce_Inv_cleanup v0 (s : Hook T) : Inv v0 s → Inv v0 (cleanup s).
Proof.
  intros HI. pose proof (cleanup_timers v0 s HI) as Ht.
  destruct HI as [Hq Hv Hc _].
  destruct (debounce_cleanup_frame s) as (Ed & Ec & Eh & _).
  split; rewrite ?Ed, ?Ec, ?Eh, ?Ht; done.
Qed.

Lemma debounce_Inv_step v0 (s s' : Hook T) e :
  Inv v0 s → step delay s e = Some s' → Inv v0 s'.
Proof.
  intros HI. destruct e as [now value|id now|]; simpl.
  - case_decide as Hnow; [|done]. intros [= <-].
    pose proof (cleanup_timers v0 s HI) as Ht.
    destruct (debounce_cleanup_frame s) as (Ed & Ec & Eh & _).
    destruct HI as [Hq Hv Hc _].
    split; simpl; rewrite ?Ed, ?Eh, ?Ht.
    + by apply quiet_input.
    + rewrite updated_app. simpl. by rewrite app_nil_r.
    + intros t v [Hin|[= -> ->]%list_elem_of_singleton]%elem_of_app; [|lia].
      apply Hc in Hin. lia.
    + intros id tm [[<- <-]|[_ Hl]]%lookup_insert_Some;
        [|by rewrite lookup_empty in Hl].
      split; [done|]. by exists (history s), now.
  - destruct (timers s !! id) as [tm|] eqn:Etm; [|done].
    case_decide as Hnow; [|done]. intros [= <-].
    destruct HI as [Hq Hv Hc Ht].
    destruct (Ht id tm Etm) as (Hh & h0 & ti & Hhist & Hdue & Hti).
    split; simpl.
    + rewrite Hhist. apply quiet_update; [by rewrite <- Hhist|].
      rewrite <- Hhist. intros t v Hin%Hc. lia.
    + rewrite updated_app. simpl. by rewrite last_snoc.
    + intros t v [Hin|[=]%list_elem_of_singleton]%elem_of_app.
      apply Hc in Hin. lia.
    + intros id' tm' Hl. destruct (decide (id = id')) as [->|Hne].
      * by rewrite lookup_delete_eq in Hl.
      * rewrite lookup_delete_ne in Hl by done.
        destruct (Ht id' tm' Hl) as [? _]. congruence.
  - intros [= <-]. by apply debounce_Inv_cleanup.
Qed.

Lemma debounce_Inv_run v0 es : ∀ (s s' : Hook T),
  Inv v0 s → run delay s es = Some s' → Inv v0 s'.
Proof.
  induction es as [|e es IH]; simpl; intros s s' HI.
  - by intros [= <-].
  - destruct (step delay s e) as [s1|] eqn:E; [|done]. eauto using debounce_Inv_step.
Qed.

(** C4. In a run of the debouncer with a fixed [delay], every update of the
    debounced value takes the value of the input right before it and comes
    at least [delay] after that input and after every earlier one: it only
    happens after a quiet period. The debounced value is the value of the
    latest such update, the initial value as long as there was none; an
    input by itself does not change it. A new input restarts the wait,
    whatever was pending: the only timer left is the new one, due [delay]
    after the new input. And the debounced value cannot be set less than
    [delay] after an input. *)
Theorem debounced_value_waits_for_a_quiet_period
    (t0 : Z) (v0 : T) (es : list (Event T)) (s : Hook T) :
  run delay (render t0 v0) es = Some s →
  (∀ h1 h2 t v, history s = (h1 ++ Update t v :: h2)%list →
     (∃ h0 ti, h1 = (h0 ++ [Input ti v])%list) ∧
     (∀ ti vi, Input ti vi ∈ h1 → ti + delay ≤ t)) ∧
  debouncedValue s = default v0 (last (updated (history s))) ∧
  (∀ now value s', step delay s (Effect now value) = Some s' →
     debouncedValue s' = debouncedValue s ∧
     ∀ id tm, timers s' !! id = Some tm →
       due tm = now + delay ∧ captured tm = value) ∧
  (∀ id now ti vi, Input ti vi ∈ history s → now < ti + delay →
     step delay s (Fire id now) = None).
Proof.
  intros Hrun.
  pose proof (debounce_Inv_run v0 es _ _ (debounce_Inv_render t0 v0) Hrun) as HI.
  pose proof HI as [Hq Hv Hc Ht].
  split; [done|]. split; [done|]. split.
  - intros now value s'. simpl. case_decide; [|done]. intros [= <-]. simpl.
    destruct (debounce_cleanup_frame s) as (-> & _). split; [done|].
    rewrite (cleanup_timers v0 s HI).
    by intros id tm [[<- <-]|[_ Hl]]%lookup_insert_Some;
      [|rewrite lookup_empty in Hl].
  - intros id now ti vi Hin Hlt. simpl.
    destruct (timers s !! id) as [tm|] eqn:Etm; [|done].
    destruct (Ht id tm Etm) as (_ & h0 & ti' & Hh & Hdue & Hti).
    apply Hc in Hin. rewrite decide_False; [done|]. lia.
Qed.

End Facts.

(** Typing "r", "ro", "roc" within 100 ms of each other with a delay of
    500 ms: only the last input is propagated, 500 ms after it. *)
Definition typing : list (Event string) :=
  [Effect 0 ""; Effect 100 "r"; Effect 200 "ro"; Effect 300 "roc"; Fire 3 800].

Example typing_history :
  history <$> run 500 (render 0 "") typing
  = Some [Input 0 ""; Input 100 "r"; Input 200 "ro"; Input 300 "roc"; Update 800 "roc"].
Proof. vm_compute. reflexivity. Qed.

(** While the typing goes on the debounced value stays the initial one. *)
Example typing_goes_on :
  debouncedValue <$> run 500 (render 0 "") [Effect 0 ""; Effect 100 "r"; Effect 200 "ro"]
  = Some "".
Proof. vm_compute. reflexivity. Qed.

(** Neither the timer of the latest input nor a cleared one runs early. *)
Example no_update_while_typing :
  run 500 (render 0 "") [Effect 0 ""; Effect 100 "r"; Effect 200 "ro"; Fire 2 600] = None ∧
  run 500 (render 0 "") [Effect 0 ""; Effect 100 "r"; Effect 200 "ro"; Fire 0 600] = None.
Proof. vm_compute. done. Qed.

Lemma debounced_value_waits_for_a_quiet_period_witness :
  ∃ s, run 500 (render 0 "") typing = Some s ∧
       debouncedValue s = "roc" ∧
       300 + 500 ≤ 800.
Proof.
  eexists. split; [vm_compute; reflexivity|]. split; [reflexivity|].
  refine (proj2 (proj1 (debounced_value_waits_for_a_quiet_period 500 0 "" typing _ eq_refl)
            [Input 0 ""; Input 100 "r"; Input 200 "ro"; Input 300 "roc"] [] 800 "roc" eq_refl)
            300 "roc" _).
  do 3 apply list_elem_of_further. apply list_elem_of_here.
Defined.

End DebounceFacts.

(* ===================================================================== *)
(** * More about the query string: what the serializer writes *)
(* ===================================================================== *)

Module QueryMore.
Import UseFetch QueryFacts.

(** The characters the serializer writes for a key or a value: letters,
    digits, [* - . _], the [+] of a space and the [%] of an escape. *)
Definition written (c : ascii) : bool :=
  let n := N_of_ascii c in
  (Js.unreserved n || (n =? 43) || (n =? 37))%N.

(** The characters of a query string: those, and the [=] and [&] between
    names and values. *)
Definition allowed (c : ascii) : bool :=
  written c || Ascii.eqb c "=" || Ascii.eqb c "&".

Fixpoint all_in (P : ascii → bool) (s : string) : bool :=
  match s with
  | EmptyString => true
  | String c s' => P c && all_in P s'
  end.

(** A record whose keys and [String(value)]s are strings of code units. *)
Definition well_formed_params (p : Params) : Prop :=
  Forall (λ kv, Js.well_formed kv.1 ∧ Js.well_formed (Js.String_ kv.2)) p.

Lemma all_in_app P s1 s2 : all_in P (s1 ++ s2) = all_in P s1 && all_in P s2.
Proof.
  induction s1 as [|c s1 IH]; simpl; [done|]. by rewrite IH, andb_assoc.
Qed.

Lemma all_in_weaken (P Q : ascii → bool) s :
  (∀ c, P c = true → Q c = true) → all_in P s = true → all_in Q s = true.
Proof.
  intros HPQ. induction s as [|c s IH]; simpl; [done|].
  intros [Hc Hs]%andb_true_iff. by rewrite (HPQ c Hc), IH.
Qed.

Lemma all_in_occurs P a s :
  P a = false → all_in P s = true → occurs a s = false.
Proof.
  intros Ha. induction s as [|c s IH]; simpl; [done|].
  intros [Hc Hs]%andb_true_iff. rewrite IH, orb_false_r by done.
  destruct (Ascii.eqb_spec c a) as [->|]; [congruence|done].
Qed.

(** *** Bytes, code points and code units *)

Lemma encode_byte_written b : (b < 256)%N → all_in written (Js.encode_byte b) = true.
Proof.
  intros Hb. rewrite <- (N_ascii_embedding b Hb).
  by destruct (ascii_of_N b) as [[] [] [] [] [] [] [] []].
Qed.

Lemma utf8_bytes c : (c < 0x110000)%N → Forall (λ b, (b < 256)%N) (Js.utf8 c).
Proof.
  intros Hc. unfold Js.utf8.
  repeat case_match; repeat constructor;
    rewrite ?N.ltb_lt, ?N.ltb_ge in *; try lia.
  - pose proof (N.mod_lt c 64). pose proof (N.Div0.div_lt_upper_bound c 64 32). lia.
  - pose proof (N.mod_lt c 64). lia.
  - pose proof (N.Div0.div_lt_upper_bound c 4096 16). lia.
  - pose proof (N.mod_lt (c / 64) 64). lia.
  - pose proof (N.mod_lt c 64). lia.
  - pose proof (N.Div0.div_lt_upper_bound c 262144 5). lia.
  - pose proof (N.mod_lt (c / 4096) 64). lia.
  - pose proof (N.mod_lt (c / 64) 64). lia.
  - pose proof (N.mod_lt c 64). lia.
Qed.

Lemma scalar_values_bound_fuel (n : nat) : ∀ s : Js.str,
  (List.length s ≤ n)%nat → Js.well_formed s →
  Forall (λ c, (c < 0x110000)%N) (Js.scalar_values s).
Proof.
  induction n as [|n IH]; intros [|u s] Hlen Hwf; simpl in *;
    try (constructor || lia).
  apply Forall_cons in Hwf as [Hu Hwf].
  assert (Forall (λ c, (c < 0x110000)%N) (Js.scalar_values s)) as Hs
    by (apply IH; [lia|done]).
  destruct (Js.is_high u) eqn:Hh.
  - destruct s as [|l s']; [repeat constructor; lia|].
    destruct (Js.is_low l) eqn:Hl.
    + apply Forall_cons in Hwf as [Hlw Hwf]. constructor.
      * unfold Js.is_high, Js.is_low in *.
        rewrite andb_true_iff, !N.leb_le in Hh, Hl. lia.
      * apply IH; [simpl in Hlen; lia|done].
    + constructor; [lia|done].
  - destruct (Js.is_low u); constructor; (lia || done).
Qed.

Lemma urlencode_written s :
  Js.well_formed s → all_in written (Js.urlencode s) = true.
Proof.
  intros Hwf. unfold Js.urlencode.
  assert (Forall (λ b, (b < 256)%N) (Js.scalar_values s ≫= Js.utf8)) as Hb.
  { apply Forall_bind. eapply Forall_impl;
      [by apply (scalar_values_bound_fuel (List.length s))|].
    intros c Hc. by apply utf8_bytes. }
  induction Hb as [|b bs Hb _ IH]; [done|].
  rewrite fmap_cons. destruct bs as [|b' bs].
  - simpl. by apply encode_byte_written.
  - change (all_in written (Js.encode_byte b ++ ""
              ++ String.concat "" (Js.encode_byte <$> b' :: bs)) = true).
    rewrite all_in_app, encode_byte_written by done. exact IH.
Qed.

Lemma get_in (p : Params) k :
  get p k = Js.undefined ∨ ∃ k', (k', get p k) ∈ p.
Proof.
  induction p as [|[k' v] p IH]; simpl; [by left|].
  case_decide.
  - right. exists k'. apply list_elem_of_here.
  - destruct IH as [?|[k'' ?]]; [by left|].
    right. exists k''. by apply list_elem_of_further.
Qed.

Lemma undefined_well_formed : Js.well_formed (Js.String_ Js.undefined).
Proof. repeat constructor. Qed.

Lemma searchParams_well_formed (p : Params) :
  well_formed_params p →
  Forall (λ kv, Js.well_formed kv.1 ∧ Js.well_formed kv.2) (searchParams p).
Proof.
  intros Hp. unfold well_formed_params in Hp. rewrite Forall_forall in Hp.
  apply Forall_forall. intros [k v] Hkv.
  unfold searchParams in Hkv. apply list_elem_of_fmap in Hkv as (k' & [= -> ->] & Hk).
  rewrite merge_sort_Permutation in Hk.
  apply list_elem_of_fmap in Hk as ([k v] & -> & Hin). simpl. split.
  - by destruct (Hp _ Hin).
  - destruct (get_in p k) as [->|[k' Hg]]; [apply undefined_well_formed|].
    by destruct (Hp _ Hg).
Qed.

Lemma toString_allowed (l : list (Js.str * Js.str)) :
  Forall (λ kv, Js.well_formed kv.1 ∧ Js.well_formed kv.2) l →
  all_in allowed (Js.URLSearchParams_toString l) = true.
Proof.
  assert (∀ s, Js.well_formed s → all_in allowed (Js.urlencode s) = true) as Hw.
  { intros s Hs. apply (all_in_weaken written); [|by apply urlencode_written].
    intros c Hc. unfold allowed. by rewrite Hc. }
  assert (∀ kv, Js.well_formed kv.1 ∧ Js.well_formed kv.2 →
                all_in allowed (entry kv) = true) as He.
  { intros kv [H1 H2]. unfold entry. rewrite !all_in_app, !Hw by done. done. }
  induction 1 as [|kv l Hkv Hl IH]; [done|].
  rewrite toString_cons, all_in_app, He by done. destruct l; [done|].
  simpl. exact IH.
Qed.

(** ** What the query string can and cannot contain *)

(** X1. With keys and [String(value)]s that are strings of code units, the
    query string consists of letters, digits and the characters
    [* - . _ + % = &] only, so any other character, such as a question
    mark, a hash sign, a slash or a space, never occurs in it; and the
    encoded form of a key or of a value has neither [=] nor [&]. *)
Theorem query_string_alphabet (p : Params) :
  well_formed_params p →
  all_in allowed (queryString (Some p)) = true ∧
  (∀ c, allowed c = false → occurs c (queryString (Some p)) = false) ∧
  Forall (λ kv, all_in written (Js.urlencode kv.1) = true ∧
                all_in written (Js.urlencode (Js.String_ kv.2)) = true ∧
                occurs "=" (Js.urlencode kv.1) = false ∧
                occurs "&" (Js.urlencode kv.1) = false ∧
                occurs "=" (Js.urlencode (Js.String_ kv.2)) = false ∧
                occurs "&" (Js.urlencode (Js.String_ kv.2)) = false) p.
Proof.
  intros Hp.
  assert (all_in allowed (queryString (Some p)) = true) as Hall.
  { simpl. by apply toString_allowed, searchParams_well_formed. }
  split; [done|]. split.
  - intros c Hc. by apply (all_in_occurs allowed).
  - eapply Forall_impl; [exact Hp|]. intros kv [H1 H2].
    pose proof (urlencode_written _ H1). pose proof (urlencode_written _ H2).
    repeat split; try done; by apply (all_in_occurs written).
Qed.

Lemma query_string_alphabet_witness :
  occurs "?" (queryString (Some [(Js.lit "a b", string_x_and_y);
                                 ([0xD83D; 0xDE00; 233]%N, number_1)])) = false.
Proof.
  refine (proj1 (proj2 (query_string_alphabet _ _)) "?"%char eq_refl).
  repeat constructor.
Defined.

(** X3. The query string of a record is empty exactly when the record has
    no keys; so an empty record gives the bare base URL, like null, and a
    record with at least one key gives the base URL, a question mark and the
    query string. *)
Theorem query_string_empty_iff_no_keys (baseUrl : string) (p : Params) :
  (queryString (Some p) = "" ↔ p = []) ∧
  (p = [] → finalUrl baseUrl (queryString (Some p)) = baseUrl) ∧
  (p ≠ [] → finalUrl baseUrl (queryString (Some p))
            = baseUrl ++ "?" ++ queryString (Some p)).
Proof.
  split; [apply queryString_empty|]. split; [by intros ->|].
  apply finalUrl_nonempty.
Qed.

Lemma query_string_empty_iff_no_keys_witness :
  finalUrl "/api/pay" (queryString (Some [])) = "/api/pay" ∧
  finalUrl "/api/transactions" (queryString (Some [(Js.lit "page", number_1)]))
  = "/api/transactions?page=1".
Proof.
  split.
  - exact (proj1 (proj2 (query_string_empty_iff_no_keys "/api/pay" [])) eq_refl).
  - refine (proj2 (proj2 (query_string_empty_iff_no_keys "/api/transactions"
                            [(Js.lit "page", number_1)])) _).
    intros [=].
Defined.

(** ** Cutting the query string back into its entries *)










End QueryMore.

(* ===================================================================== *)
(** * More about useFetch: requests, controllers, keys and answers *)
(* ===================================================================== *)

Module FetchMore.
Import UseFetch FetchFacts.

(** The caller's headers as the spread copies them. *)
Definition caller_headers (p : Props) : gmap string string :=
  spread (default (HeadersRecord ∅) (headers (options p))).

Lemma pairs_lookup (v : list string → string) (l : list (list string)) :
  ∀ (g : nat → string) i inner, Inj (=) (=) g → l !! i = Some inner →
  (list_to_map (imap (λ i inner, (g i, v inner)) l) : gmap string string) !! g i
  = Some (v inner).
Proof.
  induction l as [|x l IH]; intros g i inner Hg; [done|].
  destruct i as [|i]; simpl.
  - intros [= ->]. apply lookup_insert_eq.
  - intros Hl. rewrite lookup_insert_ne by (by intros ?%Hg).
    apply (IH (g ∘ S) i inner); [|done].
    intros a b Hab. apply Hg in Hab. by injection Hab.
Qed.

Lemma pairs_lookup_None (v : list string → string) (l : list (list string)) :
  ∀ (g : nat → string) k, (∀ i, i < length l → k ≠ g i) →
  (list_to_map (imap (λ i inner, (g i, v inner)) l) : gmap string string) !! k = None.
Proof.
  induction l as [|x l IH]; intros g k Hk; [done|]. simpl.
  rewrite lookup_insert_ne.
  - apply (IH (g ∘ S) k). intros i Hi. apply (Hk (S i)). simpl. lia.
  - intros Heq. apply (Hk 0); [simpl; lia|done].
Qed.

Section Facts.

Context {T : Type} (randomUUID : nat → Js.Error + string).

(** ** One call of [fetchData] *)

(** X5. A call of [fetchData] in a state the hook can reach keeps the data
    of an earlier answer, creates exactly one controller, stores it in the
    ref and aborts the one stored before. It then either reaches [fetch]:
    [loading] is on, [error] is null and exactly one request is sent, in
    flight under the new signal; or its [try] block throws before that:
    nothing is sent, [loading] is off at once, and [error] is the message of
    what was thrown, unless that is named AbortError. The block throws
    exactly when the method is POST and [crypto.randomUUID()] throws, or the
    body is truthy and [JSON.stringify] throws on it. *)
Theorem fetchData_either_sends_or_reports (s : Hook T) (p : Props) :
  reachable randomUUID s →
  let s' := fetchData randomUUID p s in
  data s' = data s ∧
  activeController s' = Some (controllers s) ∧
  controllers s' = S (controllers s) ∧
  (∀ c, c ∈ aborted s' ↔ activeController s = Some c ∨ c ∈ aborted s) ∧
  (∀ h b, prepared randomUUID p s = inr (h, b) →
     loading s' = true ∧ error s' = None ∧
     inflight s' = {[controllers s]} ∪ inflight s ∧
     ∃ r, sent s' = (sent s ++ [r])%list ∧ req_signal r = controllers s) ∧
  (∀ e, prepared randomUUID p s = inl e →
     loading s' = false ∧
     error s' = (if decide (Js.name e = "AbortError") then None
                 else Some (Js.message e)) ∧
     inflight s' = inflight s ∧ sent s' = sent s) ∧
  ((∃ e, prepared randomUUID p s = inl e) ↔
   (default GET (method (options p)) = POST ∧ ∃ e, randomUUID (draws s) = inl e) ∨
   (Js.truthy (body (options p)) = true ∧
    ∃ e, Js.JSON_stringify (body (options p)) = inl e)).
Proof.
  intros Hr s'. subst s'. pose proof (reachable_Inv randomUUID s Hr) as HI.
  rewrite fetchData_data, fetchData_active, fetchData_controllers.
  split; [done|]. split; [done|]. split; [done|]. split; [|split; [|split]].
  - intros c. rewrite fetchData_aborted. apply abort_active_aborted.
  - intros h b Hp. rewrite (fetchData_sends randomUUID p s h b Hp). simpl.
    repeat split. by eexists.
  - intros e Hp. rewrite (fetchData_throws randomUUID p s e Hp). simpl.
    rewrite bool_decide_eq_false_2
      by (by apply fresh_controller_not_aborted).
    repeat split.
    destruct (String.eqb_spec (Js.name e) "AbortError"); by case_decide.
  - unfold prepared, request_init, finalHeaders, generateUUID, body_init.
    case_decide as Hm; simpl;
      destruct (Js.truthy (body (options p)));
      destruct (Js.JSON_stringify (body (options p))) as [e1|b1];
      try destruct (randomUUID (draws s)) as [e2|u2]; simpl;
      split; intros H; try (by eauto 6);
      try (destruct H as [e H]; discriminate);
      destruct H as [[? [e H]]|[? [e H]]]; by eauto.
Qed.

Lemma union_content_type (m : gmap string string) k :
  (m ∪ {["Content-Type" := "application/json"]}) !! k =
  match m !! k with
  | Some v => Some v
  | None => if decide (k = "Content-Type") then Some "application/json" else None
  end.
Proof.
  rewrite lookup_union. destruct (m !! k) as [v|] eqn:E.
  - by destruct ({["Content-Type" := "application/json"]} !! k).
  - rewrite (left_id None _). case_decide as Hk.
    + subst k. apply lookup_singleton_eq.
    + by apply lookup_singleton_ne.
Qed.

(** X6. The headers of a request that is sent. A POST carries the UUID of
    the call under Idempotency-Key even when the caller supplied a key of
    their own; under any other name, and for any other method, what the
    spread copied from the caller's headers wins, and Content-Type is
    application/json when it copied none; nothing else is added. The spread
    copies the entries of a plain record; of an array of pairs it copies the
    indices, each with its pair joined by a comma, not the header names; of a
    [Headers] instance it copies nothing. *)
Theorem request_headers (s : Hook T) (p : Props)
    (h : gmap string string) (b : option string) (k : string) :
  prepared randomUUID p s = inr (h, b) →
  (∃ r, last (sent (fetchData randomUUID p s)) = Some r ∧ req_headers r = h) ∧
  h !! k =
    (if decide (default GET (method (options p)) = POST ∧ k = "Idempotency-Key")
     then match randomUUID (draws s) with inr u => Some u | inl _ => None end
     else match caller_headers p !! k with
          | Some v => Some v
          | None => if decide (k = "Content-Type")
                    then Some "application/json" else None
          end) ∧
  (headers (options p) = None → caller_headers p = ∅) ∧
  (∀ r, headers (options p) = Some (HeadersRecord r) → caller_headers p = r) ∧
  (∀ l, headers (options p) = Some (HeadersObject l) → caller_headers p = ∅) ∧
  (∀ l, headers (options p) = Some (HeadersPairs l) →
     (∀ i inner, l !! i = Some inner →
        caller_headers p !! pretty i = Some (String.concat "," inner)) ∧
     (∀ k', (∀ i, i < length l → k' ≠ pretty i) → caller_headers p !! k' = None)).
Proof.
  intros Hp. split; [|split].
  - exists (request_of p s h b). split; [by apply last_sent_fetchData|done].
  - pose proof (prepared_inv randomUUID p s h b Hp) as [_ Hh].
    destruct (decide (default GET (method (options p)) = POST)) as [Hm|Hm].
    + destruct Hh as (u & Hu & ->). rewrite Hu.
      destruct (decide (k = "Idempotency-Key")) as [->|Hk].
      * rewrite lookup_insert_eq. by rewrite decide_True.
      * rewrite lookup_insert_ne by done.
        rewrite decide_False by (by intros [_ ?]). apply union_content_type.
    + subst h. rewrite decide_False by (by intros [? _]).
      apply union_content_type.
  - unfold caller_headers. repeat split.
    + by intros ->.
    + by intros r ->.
    + by intros l ->.
    + intros i inner Hl. subst. rewrite H. simpl.
      by apply (pairs_lookup (String.concat ",") l pretty i inner _).
    + intros k' Hk'. rewrite H. simpl.
      by apply (pairs_lookup_None (String.concat ",") l pretty k').
Qed.

(** X7. The rest of a request that is sent: the URL is the final URL, the
    method is GET when the option is omitted, the signal is the one of the
    controller just created, and the body is null when the [body] option is
    falsy and what [JSON.stringify] returns for it otherwise, which is null
    again when that is undefined. *)
Theorem request_method_and_body (s : Hook T) (p : Props)
    (h : gmap string string) (b : option string) :
  prepared randomUUID p s = inr (h, b) →
  ∃ r, last (sent (fetchData randomUUID p s)) = Some r ∧
       req_url r = finalUrl (baseUrl p) (queryString (params p)) ∧
       req_method r = default GET (method (options p)) ∧
       (method (options p) = None → req_method r = GET) ∧
       req_signal r = controllers s ∧
       req_body r = b ∧
       (Js.truthy (body (options p)) = false → req_body r = None) ∧
       (Js.truthy (body (options p)) = true →
        Js.JSON_stringify (body (options p)) = inr (req_body r)).
Proof.
  intros Hp. exists (request_of p s h b).
  split; [by apply last_sent_fetchData|].
  pose proof (prepared_inv randomUUID p s h b Hp) as [Hb _].
  unfold body_init in Hb. simpl. repeat split.
  - by intros ->.
  - intros Ht. rewrite Ht in Hb. congruence.
  - intros Ht. by rewrite Ht in Hb.
Qed.

(** ** Invariants of a run *)

Lemma sent_cleanup (s : Hook T) : sent (cleanup s) = sent s.
Proof. by destruct (cleanup_frame s) as (_ & _ & _ & _ & _ & -> & _). Qed.

Lemma controllers_cleanup (s : Hook T) : controllers (cleanup s) = controllers s.
Proof. by destruct (cleanup_frame s) as (_ & _ & _ & -> & _). Qed.

Lemma inflight_cleanup (s : Hook T) : inflight (cleanup s) = inflight s.
Proof. by destruct (cleanup_frame s) as (_ & _ & _ & _ & -> & _). Qed.

Lemma draws_cleanup (s : Hook T) : draws (cleanup s) = draws s.
Proof. by destruct (cleanup_frame s) as (_ & _ & _ & _ & _ & _ & ->). Qed.

Lemma run_snoc es : ∀ (s s1 s2 : Hook T) e,
  run randomUUID s es = Some s1 → step randomUUID s1 e = Some s2 →
  run randomUUID s (es ++ [e])%list = Some s2.
Proof.
  induction es as [|e0 es IH]; simpl; intros s s1 s2 e.
  - intros [= ->] ->. done.
  - destruct (step randomUUID s e0); [apply IH|done].
Qed.

(** A property of the state that every call of [fetchData] keeps, that the
    cleanup keeps and that the settle path keeps holds in every state the
    hook reaches. *)
Lemma reachable_ind (P : Hook T → Prop) :
  P initial →
  (∀ p s, reachable randomUUID s → P s → P (fetchData randomUUID p s)) →
  (∀ s, reachable randomUUID s → P s → P (cleanup s)) →
  (∀ c o s, reachable randomUUID s → c ∈ inflight s → P s → P (settle c o s)) →
  ∀ s, reachable randomUUID s → P s.
Proof.
  intros H0 Hf Hc Hs.
  assert (∀ es s s', reachable randomUUID s → P s →
                     run randomUUID s es = Some s' →
                     reachable randomUUID s' ∧ P s') as Hrun.
  { induction es as [|e es IH]; simpl; intros s s' Hr HP.
    - by intros [= <-].
    - destruct (step randomUUID s e) as [s1|] eqn:E; [|done].
      apply IH.
      + destruct Hr as [es0 Hes0]. exists (es0 ++ [e])%list.
        by apply (run_snoc es0 initial s s1 e).
      + assert (reachable randomUUID (cleanup s)) as Hrc.
        { destruct Hr as [es0 Hes0]. exists (es0 ++ [Unmount])%list.
          by apply (run_snoc es0 initial s (cleanup s) Unmount). }
        destruct e as [p|p|p|c o|]; simpl in E.
        * injection E as <-. unfold effect. case_decide; auto.
        * injection E as <-. unfold effect. case_decide; auto.
        * injection E as <-. auto.
        * case_decide; [|done]. injection E as <-. auto.
        * injection E as <-. auto. }
  intros s [es Hes]. eapply Hrun; [by exists []| |done]. done.
Qed.

(** The signals of the requests sent so far increase, each is the signal of
    a controller that exists, and every request in flight is one of them. *)
Record Signals (s : Hook T) : Prop := {
  sig_sorted : StronglySorted lt (req_signal <$> sent s);
  sig_bound : Forall (λ c, c < controllers s) (req_signal <$> sent s);
  sig_length : (length (sent s) ≤ controllers s)%nat;
  sig_inflight : ∀ c, c ∈ inflight s → c ∈ req_signal <$> sent s }.

Lemma signals_reachable (s : Hook T) : reachable randomUUID s → Signals s.
Proof.
  revert s. apply reachable_ind.
  - split; simpl; [constructor|constructor|lia|set_solver].
  - intros p s _ [Hs Hb Hl Hi].
    assert (Forall (λ c, c < S (controllers s)) (req_signal <$> sent s)) as Hb'.
    { eapply Forall_impl; [exact Hb|]. simpl. lia. }
    destruct (prepared randomUUID p s) as [e|[h b]] eqn:E.
    + rewrite (fetchData_throws randomUUID p s e E).
      split; simpl; auto.
    + rewrite (fetchData_sends randomUUID p s h b E).
      split; simpl; rewrite ?fmap_app, ?length_app; simpl.
      * apply StronglySorted_app. split; [|split; [done|repeat constructor]].
        intros x1 x2 H1 ->%list_elem_of_singleton.
        rewrite Forall_forall in Hb. by apply Hb.
      * apply Forall_app. split; [done|]. repeat constructor.
      * lia.
      * intros c. rewrite elem_of_union, elem_of_singleton, elem_of_app,
          list_elem_of_singleton. intros [-> | ?]; auto.
  - intros s _ [Hs Hb Hl Hi].
    split; rewrite ?sent_cleanup, ?controllers_cleanup, ?inflight_cleanup; done.
  - intros c o s _ _ [Hs Hb Hl Hi].
    destruct (settle_frame c o s) as (_ & Ectl & _ & Einf & Esent & _).
    split; rewrite ?Ectl, ?Einf, ?Esent; try done.
    intros c'. rewrite elem_of_difference. intros [? _]. auto.
Qed.

Lemma StronglySorted_lt_NoDup (l : list nat) : StronglySorted lt l → NoDup l.
Proof.
  induction 1 as [|x l Hl IH Hx]; constructor; [|done].
  intros Hin. rewrite Forall_forall in Hx. apply Hx in Hin. lia.
Qed.

(** X8. In every state the hook reaches, the requests sent so far carry the
    signals of controllers in increasing order of creation, each the signal of
    a controller that exists: no two requests share a controller, there are
    at most as many requests as controllers, and the requests in flight are
    among them. *)
Theorem every_request_has_its_own_controller (s : Hook T) :
  reachable randomUUID s →
  StronglySorted lt (req_signal <$> sent s) ∧
  Forall (λ c, c < controllers s) (req_signal <$> sent s) ∧
  NoDup (req_signal <$> sent s) ∧
  (length (sent s) ≤ controllers s)%nat ∧
  (∀ c, c ∈ inflight s → c ∈ req_signal <$> sent s).
Proof.
  intros [Hs Hb Hl Hi]%signals_reachable.
  repeat split; try done. by apply StronglySorted_lt_NoDup.
Qed.

Lemma last_of_sorted (l : list nat) c :
  StronglySorted lt l → Forall (λ x, (x ≤ c)%nat) l → c ∈ l → last l = Some c.
Proof.
  intros Hs Hb (l1 & l2 & ->)%list_elem_of_split.
  apply StronglySorted_app in Hs as (_ & _ & Hs2).
  apply StronglySorted_inv in Hs2 as [_ Hgt].
  apply Forall_app in Hb as [_ Hb]. apply Forall_cons in Hb as [_ Hb].
  destruct l2 as [|x l2]; [by rewrite last_snoc|].
  apply Forall_cons in Hgt as [? _]. apply Forall_cons in Hb as [? _]. lia.
Qed.

(** X9. In every state the hook reaches, at most one request in flight has
    a signal that is not aborted: the one of the stored controller, which is
    the request sent last. *)
Theorem at_most_one_live_request (s : Hook T) (c : nat) :
  reachable randomUUID s →
  c ∈ inflight s → c ∉ aborted s →
  activeController s = Some c ∧
  req_signal <$> last (sent s) = Some c ∧
  ∀ c', c' ∈ inflight s → c' ∉ aborted s → c' = c.
Proof.
  intros Hr Hin Hna. pose proof (reachable_Inv randomUUID s Hr) as [Ha Ho Hb Hi].
  pose proof (signals_reachable s Hr) as [Hs Hbd _ Hsig].
  assert (∀ c', c' ∈ inflight s → c' ∉ aborted s → activeController s = Some c')
    as Hact.
  { intros c' Hc' Hn. destruct (decide (activeController s = Some c')); [done|].
    destruct Hn. apply Ho; auto. }
  split; [by apply Hact|]. split.
  - rewrite <- fmap_last. apply last_of_sorted; [done| |by apply Hsig].
    pose proof (Ha c (Hact c Hin Hna)) as Hc.
    eapply Forall_impl; [exact Hbd|]. simpl. lia.
  - intros c' Hc' Hn. pose proof (Hact c Hin Hna). pose proof (Hact c' Hc' Hn).
    congruence.
Qed.

(** X10. In every state the hook reaches, [loading] is true as long as the
    request of the stored controller is in flight and not aborted: the late
    end of an older request never turns it off. *)
Theorem loading_while_the_latest_request_is_pending (s : Hook T) (c : nat) :
  reachable randomUUID s →
  activeController s = Some c → c ∈ inflight s → c ∉ aborted s →
  loading s = true.
Proof.
  intros Hr. revert c. revert s Hr. apply (reachable_ind (λ s, ∀ c,
    activeController s = Some c → c ∈ inflight s → c ∉ aborted s → loading s = true)).
  - done.
  - intros p s Hr _ c. rewrite fetchData_active. intros [= <-].
    pose proof (reachable_Inv randomUUID s Hr) as [Ha Ho Hb Hi].
    destruct (prepared randomUUID p s) as [e|[h b]] eqn:E.
    + rewrite (fetchData_throws randomUUID p s e E). simpl.
      intros Hc%Hi. lia.
    + by rewrite (fetchData_sends randomUUID p s h b E).
  - intros s _ _ c. by rewrite cleanup_active.
  - intros c' o s Hr Hc' IH c.
    destruct (settle_frame c' o s) as (-> & _ & -> & -> & _).
    rewrite settle_loading, elem_of_difference, elem_of_singleton.
    intros Hact [Hin Hne] Hna.
    pose proof (reachable_Inv randomUUID s Hr) as [Ha Ho Hb Hi].
    rewrite decide_True; [by apply (IH c)|].
    apply Ho; [by apply Hi|congruence].
Qed.

(** [is_post r]: the request is a POST. *)
Definition is_post (r : Request) : Prop := req_method r = POST.

#[global] Instance is_post_dec r : Decision (is_post r).
Proof. unfold is_post. apply _. Defined.

(** The UUID that the [i]-th call of [crypto.randomUUID()] returns. *)
Definition uuid_of (i : nat) : option string :=
  match randomUUID i with inr u => Some u | inl _ => None end.

(** The calls of [crypto.randomUUID()] whose UUIDs went out as keys. *)
Definition key_calls (s : Hook T) (calls : list nat) : Prop :=
  StronglySorted lt calls ∧
  Forall (λ i, i < draws s ∧ is_Some (uuid_of i)) calls ∧
  idempotency_key <$> filter is_post (sent s) = uuid_of <$> calls.

Lemma post_keys_reachable (s : Hook T) :
  reachable randomUUID s → ∃ calls, key_calls s calls.
Proof.
  revert s. apply reachable_ind.
  - exists []. by repeat split; try constructor.
  - intros p s _ (calls & Hs & Hb & Hk).
    assert (Forall (λ i, i < draws_after p s ∧ is_Some (uuid_of i)) calls) as Hb'.
    { eapply Forall_impl; [exact Hb|]. unfold draws_after. simpl.
      intros i [? ?]. split; [case_decide; lia|done]. }
    destruct (prepared randomUUID p s) as [e|[h b]] eqn:E.
    + exists calls. unfold key_calls.
      by rewrite (fetchData_throws randomUUID p s e E).
    + pose proof (prepared_inv randomUUID p s h b E) as [_ Hh].
      unfold key_calls. rewrite (fetchData_sends randomUUID p s h b E). simpl.
      rewrite filter_app. case_decide as Hm.
      * destruct Hh as (u & Hu & ->). exists (calls ++ [draws s])%list.
        rewrite filter_cons_True by done. rewrite filter_nil, !fmap_app, Hk.
        split; [|split].
        -- apply StronglySorted_app. split; [|split; [done|repeat constructor]].
           intros x1 x2 H1 ->%list_elem_of_singleton.
           rewrite Forall_forall in Hb. by destruct (Hb x1 H1).
        -- apply Forall_app. split; [exact Hb'|]. constructor; [|constructor].
           split; [unfold draws_after; rewrite decide_True by done; lia|].
           unfold uuid_of. rewrite Hu. eauto.
        -- f_equal. unfold idempotency_key, uuid_of, request_of.
           cbn [fmap list_fmap req_headers].
           by rewrite lookup_insert_eq, Hu.
      * exists calls. rewrite filter_cons_False by done.
        rewrite filter_nil, app_nil_r. done.
  - intros s _ (calls & Hs & Hb & Hk). exists calls. unfold key_calls.
    by rewrite sent_cleanup, draws_cleanup.
  - intros c o s _ _ (calls & Hs & Hb & Hk). exists calls. unfold key_calls.
    by destruct (settle_frame c o s) as (_ & _ & _ & _ & -> & ->).
Qed.

(** X11. In every state the hook reaches, the POST requests sent so far
    carry, in order, the UUIDs that distinct calls of [crypto.randomUUID()]
    returned, later requests those of later calls; so when the platform never
    returns the same UUID from two calls, no two POST requests of the hook
    share a key. *)
Theorem post_keys_are_uuids_of_successive_calls (s : Hook T) :
  reachable randomUUID s →
  ∃ calls,
    StronglySorted lt calls ∧
    Forall (λ i, i < draws s ∧ is_Some (uuid_of i)) calls ∧
    idempotency_key <$> filter is_post (sent s) = uuid_of <$> calls ∧
    length (filter is_post (sent s)) = length calls ∧
    ((∀ i j u, randomUUID i = inr u → randomUUID j = inr u → i = j) →
     NoDup (idempotency_key <$> filter is_post (sent s))).
Proof.
  intros (calls & Hs & Hb & Hk)%post_keys_reachable. exists calls.
  split; [done|]. split; [done|]. split; [done|]. split.
  - apply (f_equal length) in Hk. by rewrite !length_fmap in Hk.
  - intros Hinj. rewrite Hk.
    apply NoDup_fmap_2_strong; [|by apply StronglySorted_lt_NoDup].
    rewrite Forall_forall in Hb.
    intros i j [_ [u Hi]]%Hb _. unfold uuid_of in *.
    destruct (randomUUID i) as [|u1] eqn:E1; [done|].
    destruct (randomUUID j) as [|u2] eqn:E2; [done|].
    intros [= ->]. by apply (Hinj i j u2).
Qed.

(** ** The settle path *)

(** X12. A fetch that reaches [fetch] and whose answer is ok and decodes,
    with nothing happening in between, ends with the decoded result in
    [data], [loading] off and [error] null. *)
Theorem fetch_then_ok_answer (s : Hook T) (p : Props) (r : Response) (result : T)
    (h : gmap string string) (b : option string) :
  reachable randomUUID s →
  ok r = true →
  prepared randomUUID p s = inr (h, b) →
  let s1 := fetchData randomUUID p s in
  let s2 := settle (controllers s) (Responded r (inr result)) s1 in
  controllers s ∈ inflight s1 ∧
  data s2 = Some result ∧ loading s2 = false ∧ error s2 = None.
Proof.
  intros Hr Hok Hp s1 s2. subst s1 s2.
  pose proof (reachable_Inv randomUUID s Hr) as HI.
  assert (controllers s ∉ aborted (fetchData randomUUID p s)) as Hna.
  { rewrite fetchData_aborted. by apply fresh_controller_not_aborted. }
  rewrite settle_data, settle_loading, settle_error. simpl. rewrite Hok. simpl.
  rewrite !decide_False by done.
  rewrite (fetchData_sends randomUUID p s h b Hp). simpl. repeat split.
  apply elem_of_union_l, elem_of_singleton. done.
Qed.

(** X13. A failure that is not an AbortError (the fetch itself rejected, or
    the body of an ok answer did not decode) puts its message in [error] and
    leaves [data] alone, whether or not the signal is aborted: only
    [loading] looks at the signal, and is turned off when it is not
    aborted. *)
Theorem settle_stores_other_failures (s : Hook T) (c : nat) (o : Outcome T)
    (e : Js.Error) :
  Js.name e ≠ "AbortError" →
  o = FetchRejected e ∨ (∃ r, ok r = true ∧ o = Responded r (inl e)) →
  error (settle c o s) = Some (Js.message e) ∧
  data (settle c o s) = data s ∧
  loading (settle c o s) = if decide (c ∈ aborted s) then loading s else false.
Proof.
  intros Hn Ho.
  assert (awaited o = inl e) as Hw.
  { destruct Ho as [-> | (r & Hok & ->)]; simpl; [done|]. by rewrite Hok. }
  rewrite settle_error, settle_data, settle_loading, Hw.
  by rewrite decide_False.
Qed.

(** [is_settle e]: the event is the end of a request. *)
Definition is_settle (e : Event T) : Prop :=
  match e with Settle _ _ => True | _ => False end.

Lemma settles_after_abort es : ∀ (s s' : Hook T),
  (∀ c, c ∈ inflight s → c ∈ aborted s) →
  Forall is_settle es →
  run randomUUID s es = Some s' →
  data s' = data s ∧ loading s' = loading s ∧
  activeController s' = activeController s.
Proof.
  induction es as [|e es IH]; simpl; intros s s' Hall Hes.
  - by intros [= <-].
  - apply Forall_cons in Hes as [He Hes].
    destruct e as [| | |c o|]; try done. simpl.
    case_decide as Hc; [|done]. intros Hrun.
    destruct (settle_frame c o s) as (Eact & _ & Eab & Einf & _).
    destruct (IH (settle c o s) s') as (-> & -> & ->); [|done..|].
    + intros c'. rewrite Einf, Eab, elem_of_difference. intros [? _]. auto.
    + rewrite settle_data, settle_loading, Eact.
      destruct (awaited o); by rewrite !decide_True by auto.
Qed.

(** X14. Once the cleanup has run, the end of the requests that were in
    flight changes neither [data] nor [loading], however they end: nothing
    is shown after the unmount, and a [loading] that was on stays on. *)
Theorem no_data_or_loading_change_after_cleanup
    (s s' : Hook T) (es : list (Event T)) :
  reachable randomUUID s →
  Forall is_settle es →
  run randomUUID (cleanup s) es = Some s' →
  data s' = data s ∧ loading s' = loading s ∧ activeController s' = None.
Proof.
  intros Hr Hes Hrun.
  pose proof (reachable_Inv randomUUID s Hr) as [Ha Ho Hb Hi].
  destruct (cleanup_frame s) as (Ed & El & _ & _ & Einf & _).
  destruct (settles_after_abort es (cleanup s) s') as (-> & -> & ->); [|done..|].
  - intros c. rewrite Einf, cleanup_aborted. intros Hc.
    destruct (decide (activeController s = Some c)); [by left|].
    right. apply Ho; auto.
  - by rewrite Ed, El, cleanup_active.
Qed.

End Facts.

(** ** Concrete runs *)

(** [refetch] of the payment hook called twice. *)
Definition paid_twice : Hook string :=
  fetchData sample_randomUUID pay_props
    (fetchData sample_randomUUID pay_props initial).

Lemma paid_twice_reachable : reachable sample_randomUUID paid_twice.
Proof.
  exists [Refetch pay_props; Refetch pay_props]. unfold paid_twice.
  cbn [run step]. reflexivity.
Defined.

Definition ok_200 : Response := {| ok := true; status := 200; statusText := "OK" |}.

Definition failed_to_fetch : Js.Error :=
  {| Js.name := "TypeError"; Js.message := "Failed to fetch" |}.

(** A page outside a secure context: [crypto.randomUUID] is undefined, so
    calling it throws. *)
Definition no_crypto (i : nat) : Js.Error + string :=
  inl {| Js.name := "TypeError";
         Js.message := "crypto.randomUUID is not a function" |}.

(** The BigInt [1n]: truthy, and [JSON.stringify] throws on it. *)
Definition bigint_1 : Js.Value :=
  {| Js.String_ := Js.lit "1"; Js.truthy := true;
     Js.JSON_stringify := inl {| Js.name := "TypeError";
                                 Js.message := "Do not know how to serialize a BigInt" |} |}.

(** [useFetch('/api/items/7', null, { method: 'PUT', body: 1n, immediate: false })] *)
Definition bigint_props : Props :=
  {| baseUrl := "/api/items/7";
     params := None;
     options := {| method := Some PUT; body := bigint_1;
                   headers := None; immediate := Some false |} |}.

Lemma initial_reachable (rng : nat → Js.Error + string) :
  reachable (T:=string) rng initial.
Proof. exists []. reflexivity. Defined.

Lemma listing_live : 0 ∈ inflight listing ∧ 0 ∉ aborted listing.
Proof.
  split; apply (bool_decide_unpack _); vm_compute; exact I.
Defined.

(** A POST on a page without [crypto.randomUUID]: a controller is created,
    no request leaves, and the error is shown with [loading] off. *)
Example post_without_crypto :
  let s := fetchData (T:=string) no_crypto pay_props initial in
  sent s = [] ∧ controllers s = 1 ∧ draws s = 1 ∧ loading s = false ∧
  error s = Some "crypto.randomUUID is not a function".
Proof. vm_compute. done. Qed.

(** A body that cannot be serialized, sent as a POST: the UUID is drawn
    first and lost when [JSON.stringify] throws. *)
Example post_of_a_bigint :
  let p := {| baseUrl := "/api/pay"; params := None;
              options := {| method := Some POST; body := bigint_1;
                            headers := None; immediate := Some false |} |} in
  let s := fetchData (T:=string) sample_randomUUID p initial in
  sent s = [] ∧ draws s = 1 ∧
  error s = Some "Do not know how to serialize a BigInt".
Proof. vm_compute. done. Qed.

Example caller_key_is_replaced_on_post :
  let p := {| baseUrl := "/api/pay"; params := None;
              options := {| method := Some POST; body := string_x;
                            headers := Some (HeadersRecord
                                               {[ "Idempotency-Key" := "mine";
                                                  "Content-Type" := "text/plain" ]});
                            immediate := Some false |} |} in
  (λ r, (req_headers r !! "Idempotency-Key", req_headers r !! "Content-Type"))
    <$> sent (fetchData (T:=string) sample_randomUUID p initial)
  = [(Some "6f1c2e7a-0b1d-4c3e-9a54-1f0e8d2b7c11", Some "text/plain")].
Proof. vm_compute. reflexivity. Qed.

(** [headers: [['Accept', 'text/csv']]] *)
Definition pairs_props : Props :=
  {| baseUrl := "/api/report";
     params := None;
     options := {| method := None; body := Js.undefined;
                   headers := Some (HeadersPairs [["Accept"; "text/csv"]]);
                   immediate := Some false |} |}.

Example headers_given_as_pairs :
  (λ r, (req_headers r !! "Accept", req_headers r !! "0",
         req_headers r !! "Content-Type"))
    <$> sent (fetchData (T:=string) sample_randomUUID pairs_props initial)
  = [(None, Some "Accept,text/csv", Some "application/json")].
Proof. vm_compute. reflexivity. Qed.

Lemma fetchData_either_sends_or_reports_witness :
  sent (fetchData (T:=string) sample_randomUUID bigint_props initial) = [] ∧
  error (fetchData (T:=string) sample_randomUUID bigint_props initial)
  = Some "Do not know how to serialize a BigInt".
Proof.
  destruct (fetchData_either_sends_or_reports sample_randomUUID initial bigint_props
              (initial_reachable _)) as (_ & _ & _ & _ & _ & Hthrow & _).
  destruct (Hthrow _ eq_refl) as (_ & He & _ & Hs).
  split; [exact Hs|exact He].
Defined.

Lemma request_headers_witness :
  caller_headers pairs_props !! "0" = Some "Accept,text/csv".
Proof.
  destruct (request_headers sample_randomUUID (initial (T:=string)) pairs_props
              _ _ "0" eq_refl) as (_ & _ & _ & _ & _ & Hpairs).
  exact (proj1 (Hpairs _ eq_refl) 0 _ eq_refl).
Defined.

Lemma request_method_and_body_witness :
  ∃ r, last (sent (fetchData (T:=string) sample_randomUUID put_props initial)) = Some r ∧
       req_method r = PUT ∧
       req_body r = Some (QueryFacts.quote ++ "x" ++ QueryFacts.quote).
Proof.
  destruct (request_method_and_body sample_randomUUID (initial (T:=string)) put_props
              _ _ eq_refl) as (r & Hl & _ & Hm & _ & _ & Hb & _).
  exists r. split; [exact Hl|]. split; [exact Hm|exact Hb].
Defined.

Lemma every_request_has_its_own_controller_witness :
  NoDup (req_signal <$> sent paid_twice).
Proof.
  exact (proj1 (proj2 (proj2 (every_request_has_its_own_controller sample_randomUUID
                                paid_twice paid_twice_reachable)))).
Defined.

Lemma at_most_one_live_request_witness : activeController listing = Some 0.
Proof.
  exact (proj1 (at_most_one_live_request sample_randomUUID listing 0
                  listing_reachable (proj1 listing_live) (proj2 listing_live))).
Defined.

Lemma loading_while_the_latest_request_is_pending_witness :
  loading listing = true.
Proof.
  exact (loading_while_the_latest_request_is_pending sample_randomUUID listing 0
           listing_reachable eq_refl (proj1 listing_live) (proj2 listing_live)).
Defined.

Lemma post_keys_are_uuids_of_successive_calls_witness :
  ∃ calls, idempotency_key <$> filter is_post (sent paid_twice)
           = uuid_of sample_randomUUID <$> calls.
Proof.
  destruct (post_keys_are_uuids_of_successive_calls sample_randomUUID
              paid_twice paid_twice_reachable) as (calls & _ & _ & Hk & _).
  exists calls. exact Hk.
Defined.

Lemma fetch_then_ok_answer_witness :
  data (settle 0 (Responded ok_200 (inr "rows"))
          (fetchData sample_randomUUID list_props initial)) = Some "rows".
Proof.
  exact (proj1 (proj2 (fetch_then_ok_answer sample_randomUUID initial list_props
                         ok_200 "rows" _ _ (initial_reachable _) eq_refl eq_refl))).
Defined.

Lemma settle_stores_other_failures_witness :
  error (settle 0 (FetchRejected failed_to_fetch) listing) = Some "Failed to fetch".
Proof.
  refine (proj1 (settle_stores_other_failures listing 0
                   (FetchRejected failed_to_fetch) failed_to_fetch _ _)).
  - intros [=].
  - left. reflexivity.
Defined.

Lemma no_data_or_loading_change_after_cleanup_witness :
  ∃ s', run sample_randomUUID (cleanup listing)
          [Settle 0 (Responded ok_200 (inr "late"))] = Some s' ∧
        data s' = None ∧ loading s' = true.
Proof.
  eexists. split; [vm_compute; reflexivity|].
  refine (let H := no_data_or_loading_change_after_cleanup sample_randomUUID
                     listing _ [Settle 0 (Responded ok_200 (inr "late"))]
                     listing_reachable _ _ in conj (proj1 H) (proj1 (proj2 H))).
  - repeat constructor.
  - vm_compute. reflexivity.
Defined.

End FetchMore.

(* ===================================================================== *)
(** * More about useThrottle: which value is shown *)
(* ===================================================================== *)

Module ThrottleMore.
Import UseThrottle.

Local Open Scope Z_scope.

#[local] Arguments Js.timer_delay : simpl never.
#[local] Arguments Js.sub_int : simpl never.
#[local] Arguments Js.ge_int : simpl never.


Section Facts.

Context {T : Type} (interval : Js.Number).

(** The values the effect ran for, oldest first. *)
Fixpoint inputs (es : list (Event T)) : list T :=
  match es with
  | [] => []
  | Effect _ value :: es' => value :: inputs es'
  | _ :: es' => inputs es'
  end.











Lemma updates_from_inputs_run es : ∀ (s s' : Hook T) (seen : list T),
  (∀ t, timer s = Some t → captured t ∈ seen) →
  Forall (λ v, v ∈ seen) (updates s).*2 →
  run interval s es = Some s' →
  Forall (λ v, v ∈ (seen ++ inputs es)%list) (updates s').*2.
Proof.
  induction es as [|e es IH]; simpl; intros s s' seen Ht Hu.
  - intros [= <-]. by rewrite app_nil_r.
  - destruct (step interval s e) as [s1|] eqn:E; [|done]. intros Hrun.
    destruct e as [now value|now|]; simpl in E.
    + case_decide as Hnow; [|done]. injection E as <-.
      replace (seen ++ value :: inputs es)%list
        with ((seen ++ [value]) ++ inputs es)%list by (by rewrite <- app_assoc).
      apply (IH _ s' (seen ++ [value])%list) in Hrun; [done|..].
      * unfold effect. simpl. case_match; intros t; simpl; [done|].
        intros [= <-]. simpl. apply elem_of_app. right. apply list_elem_of_here.
      * assert (Forall (λ v, v ∈ (seen ++ [value])%list) (updates s).*2) as Hu'.
        { eapply Forall_impl; [done|]. intros v Hv. apply elem_of_app. by left. }
        unfold effect. simpl. case_match; simpl; [|done].
        rewrite fmap_app. apply Forall_app. split; [done|].
        repeat constructor. apply elem_of_app. right. apply list_elem_of_here.
    + destruct (timer s) as [t|] eqn:Etimer; [|done].
      case_decide as Hnow; [|done]. injection E as <-.
      apply (IH _ s' seen) in Hrun; [done|done|].
      simpl. rewrite fmap_app. apply Forall_app. split; [done|].
      repeat constructor. by apply Ht.
    + injection E as <-. by apply (IH _ s' seen) in Hrun.
Qed.

(** X17. The throttle never shows a value of its own making: every value
    it passes on is one of the input values the effect ran for. *)
Theorem throttled_values_are_inputs
    (t0 : Z) (v0 : T) (es : list (Event T)) (s : Hook T) (t : Z) (v : T) :
  run interval (render t0 v0) es = Some s →
  (t, v) ∈ updates s →
  v ∈ inputs es.
Proof.
  intros Hrun Hin.
  assert (Forall (λ x, x ∈ inputs es) (updates s).*2) as H.
  { apply (updates_from_inputs_run es (render t0 v0) s []); [done|constructor|done]. }
  rewrite Forall_forall in H. apply H.
  apply list_elem_of_fmap. by exists (t, v).
Qed.

End Facts.

(** The burst of [ThrottleFacts], stopped while "d" is waiting. *)
Definition waiting : list (Event string) :=
  [Effect 0 "a"; Effect 100 "b"; Effect 200 "c"; Fire 1003; Effect 1500 "d"].

Example waiting_state :
  (λ s, (throttledValue s, timer s)) <$> run (Js.Finite 1000) (render 0 "a") waiting
  = Some ("c", Some {| due := 2003; captured := "d" |}).
Proof. vm_compute. reflexivity. Qed.



Lemma throttled_values_are_inputs_witness :
  "c" ∈ inputs (T:=string) ThrottleFacts.burst.
Proof.
  refine (throttled_values_are_inputs (Js.Finite 1000) 0 "a" ThrottleFacts.burst
            _ 1003 "c" eq_refl _).
  apply list_elem_of_here.
Defined.

End ThrottleMore.
